(** * CTC forward-backward, loss and gradient of MyTorch-v2 (CTC/CTC.py)

    A shallow embedding of the classes [CTC] and [CTCLoss] and the
    properties of their methods.

    Conventions of the embedding.
    - A Python [int] (loop counters, lengths, label indices, the NumPy
      integer entries of [target], [extended_symbols], [skip_connect]) is
      a [Z].  Indexing follows Python: an index [k] into an axis of size
      [n] is legal when [-n <= k < n] and a negative one counts from
      the end; anything else raises [IndexError].
    - A NumPy float array holds exact rationals ([Qc]): the arithmetic of
      the code is read without rounding.  A division by zero (which NumPy
      answers with [inf] or [nan] and a warning) is outside this reading:
      every statement that depends on a quotient assumes its divisor is
      not zero.  [np.log] is a parameter [log], since the logarithm of a
      rational is not rational; what is proved holds for every [log].
    - An array of dimension 1, 2 or 3 is a list, a list of rows, a list of
      planes of rows.  Arrays with an axis of size zero are not told apart
      by their other axes.
    - A call either returns ([Ok]) or raises ([Raise]); [let*] sequences
      statements and propagates the exception. *)

From Stdlib Require Import ZArith QArith Qcanon Field Lia.
From stdpp Require Import base tactics option list numbers.

Open Scope Z_scope.

(** ** The Python and NumPy run-time the code relies on *)
Module Py.

Inductive exn : Set := IndexError | ValueError | AttributeError.

Inductive result (A : Type) : Type :=
| Ok (a : A)
| Raise (e : exn).
Arguments Ok {A} a.
Arguments Raise {A} e.

Definition bind {A B : Type} (m : result A) (k : A -> result B) : result B :=
  match m with
  | Ok a => k a
  | Raise e => Raise e
  end.

Definition raises {A : Type} (m : result A) : Prop := exists e, m = Raise e.

Notation "'let*' x := m 'in' k" := (bind m (fun x => k))
  (at level 10, x pattern, m at level 100, k at level 200).

#[global] Instance exn_eq_dec : EqDecision exn.
Proof. solve_decision. Defined.

#[global] Instance result_eq_dec {A : Type} `{EqDecision A} : EqDecision (result A).
Proof. solve_decision. Defined.

(** [for x in xs: body], the loop state threaded through the body. *)
Fixpoint for_each {I St : Type} (xs : list I) (body : I -> St -> result St)
    (st : St) : result St :=
  match xs with
  | [] => Ok st
  | x :: xs' => let* st' := body x st in for_each xs' body st'
  end.

(** [range(lo, hi)] and [reversed(range(lo, hi))]. *)
Definition range (lo hi : Z) : list Z := seqZ lo (hi - lo).
Definition reversed {A : Type} (l : list A) : list A := reverse l.

(** [len(l)]. *)
Definition len {A : Type} (l : list A) : Z := Z.of_nat (length l).

(** [enumerate(l)]. *)
Definition enumerate {A : Type} (l : list A) : list (Z * A) :=
  imap (fun i x => (Z.of_nat i, x)) l.

(** The place an index [k] denotes on an axis of size [n]. *)
Definition position (n k : Z) : option nat :=
  if bool_decide (0 <= k < n) then Some (Z.to_nat k)
  else if bool_decide (- n <= k < 0) then Some (Z.to_nat (k + n))
  else None.

(** [l[k]]. *)
Definition index {A : Type} (l : list A) (k : Z) : result A :=
  match position (len l) k with
  | Some i => match l !! i with
              | Some x => Ok x
              | None => Raise IndexError
              end
  | None => Raise IndexError
  end.

(** [l[k] = v]. *)
Definition store {A : Type} (l : list A) (k : Z) (v : A) : result (list A) :=
  match position (len l) k with
  | Some i => Ok (<[i:=v]> l)
  | None => Raise IndexError
  end.

(** [l[:k]]. *)
Definition slice_to {A : Type} (l : list A) (k : Z) : list A :=
  take (Z.to_nat (if bool_decide (k < 0) then len l + k else k)) l.

(** Truth value of an integer. *)
Definition truthy (k : Z) : bool := negb (bool_decide (k = 0)).

End Py.
Import Py.

(** ** NumPy float arrays *)
Module Np.

Abbreviation vector := (list Qc) (only parsing).
Abbreviation matrix := (list (list Qc)) (only parsing).
Abbreviation tensor := (list (list (list Qc))) (only parsing).

(** [np.zeros(n)], [np.zeros((T, S))], and a (T, B, C) array of zeros. *)
Definition zeros1 (n : Z) : vector := replicate (Z.to_nat n) 0%Qc.
Definition zeros (T S : Z) : matrix := replicate (Z.to_nat T) (zeros1 S).
Definition zeros3 (T B C : Z) : tensor := replicate (Z.to_nat T) (zeros B C).

(** Second axis of a two-dimensional array, third axis of a
    three-dimensional one. *)
Definition ncols {A : Type} (a : list (list A)) : Z :=
  match a with
  | [] => 0
  | row :: _ => len row
  end.
Definition shape (a : matrix) : Z * Z := (len a, ncols a).
Definition shape3 (a : tensor) : Z * Z * Z :=
  (len a, ncols a, match a with [] => 0 | plane :: _ => ncols plane end).

(** [a[t][s]] and [a[t][s] = v]. *)
Definition get2 (a : matrix) (t s : Z) : result Qc :=
  let* row := index a t in index row s.
Definition set2 (a : matrix) (t s : Z) (v : Qc) : result matrix :=
  let* row := index a t in
  let* row' := store row s v in
  store a t row'.

(** [a[t, b, c]] and [a[t, b, c] = v]. *)
Definition get3 (a : tensor) (t b c : Z) : result Qc :=
  let* plane := index a t in
  let* row := index plane b in
  index row c.
Definition set3 (a : tensor) (t b c : Z) (v : Qc) : result tensor :=
  let* plane := index a t in
  let* row := index plane b in
  let* row' := store row c v in
  let* plane' := store plane b row' in
  store a t plane'.

(** [np.sum] of a one-dimensional array, and [np.sum(a, axis=1)]. *)
Definition sum (v : vector) : Qc := foldr Qcplus 0%Qc v.
Definition sum_axis1 (a : matrix) : vector := map sum a.

(** Broadcasting of one axis against another. *)
Definition broadcast_dim (m n : Z) : option Z :=
  if bool_decide (m = n) then Some m
  else if bool_decide (m = 1) then Some n
  else if bool_decide (n = 1) then Some m
  else None.

(** A list of size [n], or of size 1 stretched to [n]. *)
Definition stretch {A : Type} (n : Z) (l : list A) : list A :=
  match l with
  | [x] => replicate (Z.to_nat n) x
  | _ => l
  end.

(** [a * b] for two-dimensional arrays. *)
Definition multiply (a b : matrix) : result matrix :=
  match broadcast_dim (len a) (len b), broadcast_dim (ncols a) (ncols b) with
  | Some rows, Some cols =>
      Ok (zip_with (fun ra rb => zip_with Qcmult (stretch cols ra) (stretch cols rb))
            (stretch rows a) (stretch rows b))
  | _, _ => Raise ValueError
  end.

(** [a /= v] for a two-dimensional [a] and a one-dimensional [v]: the only
    axis of [v] is matched against the last axis of [a], and the result
    must have the shape of [a]. *)
Definition idivide (a : matrix) (v : vector) : result matrix :=
  match broadcast_dim (ncols a) (len v) with
  | Some cols =>
      if bool_decide (cols = ncols a)
      then Ok (map (fun row => zip_with Qcdiv row (stretch cols v)) a)
      else Raise ValueError
  | None => Raise ValueError
  end.

(** [dst[...] = src] where [dst] selects [n] entries along its first
    axis and [src] has its own first axis: sizes must agree or [src]
    must have size 1. *)
Definition broadcast_to {A : Type} (n : Z) (src : list A) : result (list A) :=
  if bool_decide (len src = n) then Ok src
  else if bool_decide (len src = 1) then Ok (stretch n src)
  else Raise ValueError.

End Np.
Import Np.

(** ** class CTC *)
Module CTC.

Record self : Set := { BLANK : Z }.

(** [CTC.__init__(self, BLANK=0)] *)
Definition init (BLANK : Z) : self := {| BLANK := BLANK |}.
Definition init_default : self := init 0.

(** [CTC.extend_target_with_blank(self, target)] *)
Definition extend_target_with_blank (this : self) (target : list Z)
    : result (list Z * list Z) :=
  let extended_symbols := [BLANK this] in
  let extended_symbols :=
    foldl (fun extended_symbols symbol =>
             (extended_symbols ++ [symbol]) ++ [BLANK this])
          extended_symbols target in
  let N := len extended_symbols in
  let skip_connect := [] in
  let* skip_connect :=
    for_each (enumerate extended_symbols)
      (fun '(i, symbol) skip_connect =>
         let* differ :=
           if bool_decide (i + 2 < N) then
             let* here := index extended_symbols i in
             let* there := index extended_symbols (i + 2) in
             Ok (negb (bool_decide (here = there)))
           else Ok false in
         if differ then Ok (skip_connect ++ [1]) else Ok (skip_connect ++ [0]))
      skip_connect in
  Ok (extended_symbols, skip_connect).

(** The two passes read [logits[t][extended_symbols[s]]] and put it into a
    float cell of their table.  The documented argument is a
    two-dimensional array, and the entry is a float; [CTCLoss] hands over
    its three-dimensional array instead, and the entry is then a whole row
    of it.  [E] is the type of the entry and [item] its conversion to the
    float a cell can hold. *)
Section Passes.

Variable E : Type.
Variable item : E -> result Qc.

(** [logits[t][extended_symbols[s]]] *)
Definition emission (logits : list (list E)) (extended_symbols : list Z)
    (t s : Z) : result E :=
  let* at_t := index logits t in
  let* symbol := index extended_symbols s in
  index at_t symbol.

(** [CTC.get_forward_probs(self, logits, extended_symbols, skip_connect)] *)
Definition get_forward_probs (logits : list (list E))
    (extended_symbols skip_connect : list Z) : result matrix :=
  let S := len extended_symbols in
  let T := len logits in
  let alpha := zeros T S in
  let* e := emission logits extended_symbols 0 0 in
  let* p := item e in
  let* alpha := set2 alpha 0 0 p in
  let* e := emission logits extended_symbols 0 1 in
  let* p := item e in
  let* alpha := set2 alpha 0 1 p in
  for_each (range 1 T) (fun t alpha =>
    for_each (range 0 S) (fun s alpha =>
      let* prev := get2 alpha (t - 1) s in
      let* alpha := set2 alpha t s prev in
      let* alpha :=
        if bool_decide (s - 1 >= 0) then
          let* cur := get2 alpha t s in
          let* prev := get2 alpha (t - 1) (s - 1) in
          set2 alpha t s (cur + prev)%Qc
        else Ok alpha in
      let* skip := index skip_connect s in
      let* alpha :=
        if truthy skip && bool_decide (s - 2 >= 0) then
          let* cur := get2 alpha t s in
          let* prev := get2 alpha (t - 1) (s - 2) in
          set2 alpha t s (cur + prev)%Qc
        else Ok alpha in
      let* cur := get2 alpha t s in
      let* e := emission logits extended_symbols t s in
      let* p := item e in
      set2 alpha t s (cur * p)%Qc) alpha) alpha.

(** First part of [get_backward_probs]: the table as the base case and
    the recurrence fill it, before the division. *)
Definition backward_table (logits : list (list E))
    (extended_symbols skip_connect : list Z) : result matrix :=
  let S := len extended_symbols in
  let T := len logits in
  let beta := zeros T S in
  let* e := emission logits extended_symbols (T - 1) (-1) in
  let* p := item e in
  let* beta := set2 beta (T - 1) (-1) p in
  let* e := emission logits extended_symbols (T - 1) (-2) in
  let* p := item e in
  let* beta := set2 beta (T - 1) (-2) p in
  for_each (reversed (range 0 (T - 1))) (fun t beta =>
    for_each (reversed (range 0 S)) (fun s beta =>
      let* next := get2 beta (t + 1) s in
      let* beta := set2 beta t s next in
      let* beta :=
        if bool_decide (s + 1 < S) then
          let* cur := get2 beta t s in
          let* next := get2 beta (t + 1) (s + 1) in
          set2 beta t s (cur + next)%Qc
        else Ok beta in
      let* skip := index skip_connect s in
      let* beta :=
        if truthy skip && bool_decide (s + 2 < S) then
          let* cur := get2 beta t s in
          let* next := get2 beta (t + 1) (s + 2) in
          set2 beta t s (cur + next)%Qc
        else Ok beta in
      let* cur := get2 beta t s in
      let* e := emission logits extended_symbols t s in
      let* p := item e in
      set2 beta t s (cur * p)%Qc) beta) beta.

(** [CTC.get_backward_probs(self, logits, extended_symbols, skip_connect)] *)
Definition get_backward_probs (logits : list (list E))
    (extended_symbols skip_connect : list Z) : result matrix :=
  let S := len extended_symbols in
  let T := len logits in
  let* beta := backward_table logits extended_symbols skip_connect in
  for_each (reversed (range 0 T)) (fun t beta =>
    for_each (reversed (range 0 S)) (fun s beta =>
      let* cur := get2 beta t s in
      let* e := emission logits extended_symbols t s in
      let* p := item e in
      set2 beta t s (cur / p)%Qc) beta) beta.

End Passes.

(** The entry of a two-dimensional [logits] is a float. *)
Definition item_float (x : Qc) : result Qc := Ok x.

(** The entry of a three-dimensional [logits] is a one-dimensional array;
    NumPy stores it into a float cell when it has exactly one element (a
    conversion it has deprecated, with a warning, since version 1.25) and
    raises [ValueError] (setting an array element with a sequence)
    otherwise. *)
Definition item_row (row : list Qc) : result Qc :=
  match row with
  | [x] => Ok x
  | _ => Raise ValueError
  end.

(** [CTC.get_posterior_probs(self, alpha, beta)] *)
Definition get_posterior_probs (alpha beta : matrix) : result matrix :=
  let T := fst (shape alpha) in
  let S := snd (shape alpha) in
  let gamma := zeros T S in
  let sumgamma := zeros1 T in
  let* gamma := multiply alpha beta in
  let sumgamma := sum_axis1 gamma in
  let* gamma := idivide gamma sumgamma in
  Ok gamma.

End CTC.

(** ** class CTCLoss *)
Module CTCLoss.

(** The arrays [forward] keeps on the object.  They are the caller's own
    arrays, which the truncation statements of [forward] and [backward]
    write into. *)
Record batch : Type := {
  logits : tensor;
  target : list (list Z);
  input_lengths : list Z;
  target_lengths : list Z
}.

Record self : Type := {
  BLANK : Z;
  gammas : list matrix;
  ctc : CTC.self;
  saved : option batch;
  extended_symbols : list (list Z)
}.

(** [CTCLoss.__init__(self, BLANK=0)]: the inner [CTC()] is built with its
    default blank whatever [BLANK] is. *)
Definition init (BLANK : Z) : self :=
  {| BLANK := BLANK; gammas := []; ctc := CTC.init_default;
     saved := None; extended_symbols := [] |}.

(** [[f(x) for x in l]] for an [f] that may raise. *)
Fixpoint traverse {A B : Type} (f : A -> result B) (l : list A) : result (list B) :=
  match l with
  | [] => Ok []
  | x :: l' => let* y := f x in let* ys := traverse f l' in Ok (y :: ys)
  end.

(** [target[batch_itr] = target[batch_itr, :target_lengths[batch_itr]]] *)
Definition truncate_target (target : list (list Z)) (target_lengths : list Z)
    (batch_itr : Z) : result (list (list Z)) :=
  let* length := index target_lengths batch_itr in
  let* row := index target batch_itr in
  let* row' := broadcast_to (len row) (slice_to row length) in
  store target batch_itr row'.

(** [logits[:, batch_itr, :] = logits[:input_lengths[batch_itr], batch_itr, :]] *)
Definition truncate_logits (logits : tensor) (input_lengths : list Z)
    (batch_itr : Z) : result tensor :=
  let* length := index input_lengths batch_itr in
  let* rows := traverse (fun plane => index plane batch_itr) logits in
  let* rows' := broadcast_to (len logits) (slice_to rows length) in
  traverse (fun '(plane, row) => store plane batch_itr row) (zip logits rows').

(** The statements [forward] and [backward] share for one sample: both
    truncations, the extended target, the two passes on the whole
    [logits] array and the posterior. *)
Definition sample_posterior (this : self) (logits : tensor)
    (target : list (list Z)) (input_lengths target_lengths : list Z)
    (batch_itr : Z) : result (list (list Z) * tensor * list Z * matrix) :=
  let* target := truncate_target target target_lengths batch_itr in
  let* logits := truncate_logits logits input_lengths batch_itr in
  let* row := index target batch_itr in
  let* (ext_symbols, skip_connect) := CTC.extend_target_with_blank (ctc this) row in
  let* alpha := CTC.get_forward_probs _ CTC.item_row logits ext_symbols skip_connect in
  let* beta := CTC.get_backward_probs _ CTC.item_row logits ext_symbols skip_connect in
  let* posterior_prob := CTC.get_posterior_probs alpha beta in
  Ok (target, logits, ext_symbols, posterior_prob).

Section Loss.

(** [np.log] *)
Variable log : Qc -> Qc.

(** The loss of one sample: the double loop that multiplies the
    posterior by the logarithms, and the negated sum of the table. *)
Definition expected_divergence (posterior_prob : matrix) (logits : tensor)
    (input_lengths : list Z) (ext_symbols : list Z) (batch_itr : Z) : result Qc :=
  let* length := index input_lengths batch_itr in
  let* posterior_prob :=
    for_each (range 0 length) (fun t posterior_prob =>
      for_each (range 0 (len ext_symbols)) (fun s posterior_prob =>
        let* cur := get2 posterior_prob t s in
        let* symbol := index ext_symbols s in
        let* p := get3 logits t batch_itr symbol in
        set2 posterior_prob t s (cur * log p)%Qc) posterior_prob)
      posterior_prob in
  Ok (sum (sum_axis1 posterior_prob) * - (1))%Qc.

(** [CTCLoss.forward(self, logits, target, input_lengths, target_lengths)] *)
Definition forward (this : self) (logits : tensor) (target : list (list Z))
    (input_lengths target_lengths : list Z) : result (Qc * self) :=
  let B := len target in
  let total_loss := zeros1 B in
  let extended_symbols := [] in
  let* (logits, target, extended_symbols, total_loss) :=
    for_each (range 0 B)
      (fun batch_itr '(logits, target, extended_symbols, total_loss) =>
         let* (target, logits, ext_symbols, posterior_prob) :=
           sample_posterior this logits target input_lengths target_lengths
             batch_itr in
         let extended_symbols := extended_symbols ++ [ext_symbols] in
         let* loss :=
           expected_divergence posterior_prob logits input_lengths ext_symbols
             batch_itr in
         let* total_loss := store total_loss batch_itr loss in
         Ok (logits, target, extended_symbols, total_loss))
      (logits, target, extended_symbols, total_loss) in
  let total_loss := (sum total_loss / Q2Qc (inject_Z B))%Qc in
  Ok (total_loss,
      {| BLANK := BLANK this; gammas := gammas this; ctc := ctc this;
         saved := Some {| logits := logits; target := target;
                          input_lengths := input_lengths;
                          target_lengths := target_lengths |};
         extended_symbols := extended_symbols |}).

End Loss.

(** The gradient rows of one sample: for every [t] in [range(T)] the row
    [dY[t, batch_itr, :]] is zeroed and the quotients are subtracted. *)
Definition accumulate (dY : tensor) (logits : tensor) (posterior_prob : matrix)
    (ext_symbols : list Z) (T C batch_itr : Z) : result tensor :=
  for_each (range 0 T) (fun t dY =>
    let* plane := index dY t in
    let* plane := store plane batch_itr (zeros1 C) in
    let* dY := store dY t plane in
    for_each (range 0 (len ext_symbols)) (fun s dY =>
      let* symbol := index ext_symbols s in
      let* cur := get3 dY t batch_itr symbol in
      let* gamma := get2 posterior_prob t s in
      let* symbol := index ext_symbols s in
      let* p := get3 logits t batch_itr symbol in
      set3 dY t batch_itr symbol (cur - gamma / p)%Qc) dY) dY.

(** [CTCLoss.backward(self)]; without a [forward] before it the
    attributes it reads do not exist. *)
Definition backward (this : self) : result (tensor * self) :=
  match saved this with
  | None => Raise AttributeError
  | Some kept =>
      let '(T, B, C) := shape3 (logits kept) in
      let dY := zeros3 T B C in
      let* (logits, target, dY) :=
        for_each (range 0 B)
          (fun batch_itr '(logits, target, dY) =>
             let* (target, logits, ext_symbols, posterior_prob) :=
               sample_posterior this logits target (input_lengths kept)
                 (target_lengths kept) batch_itr in
             let* dY := accumulate dY logits posterior_prob ext_symbols T C batch_itr in
             Ok (logits, target, dY))
          (logits kept, target kept, dY) in
      Ok (dY,
          {| BLANK := BLANK this; gammas := gammas this; ctc := ctc this;
             saved := Some {| logits := logits; target := target;
                              input_lengths := input_lengths kept;
                              target_lengths := target_lengths kept |};
             extended_symbols := extended_symbols this |})
  end.

End CTCLoss.

(** ** Vocabulary of the statements *)
Module Table.

(** [a] is a two-dimensional array of shape (T, S). *)
Definition has_shape {A : Type} (a : list (list A)) (T S : Z) : Prop :=
  len a = T /\ Forall (fun row => len row = S) a.

(** [a[t][s]] as a number, for the places where it exists. *)
Definition entry (a : matrix) (t s : Z) : Qc :=
  match get2 a t s with
  | Ok x => x
  | Raise _ => 0%Qc
  end.

(** P(t, extended[s]): [logits[t][extended_symbols[s]]] of a
    two-dimensional [logits]. *)
Definition P (logits : matrix) (extended_symbols : list Z) (t s : Z) : Qc :=
  match CTC.emission Qc logits extended_symbols t s with
  | Ok p => p
  | Raise _ => 0%Qc
  end.

(** The skip mask is set at [s]. *)
Definition skip_at (skip_connect : list Z) (s : Z) : bool :=
  match index skip_connect s with
  | Ok k => truthy k
  | Raise _ => false
  end.

(** What the forward recurrence adds up for the cell (t, s) of [a], from
    row [t - 1], before the product with P(t, extended[s]). *)
Definition forward_sum (skip_connect : list Z) (a : matrix) (t s : Z) : Qc :=
  let same := entry a (t - 1) s in
  let step := if bool_decide (s - 1 >= 0) then entry a (t - 1) (s - 1) else 0%Qc in
  let skip := if skip_at skip_connect s && bool_decide (s - 2 >= 0)
              then entry a (t - 1) (s - 2) else 0%Qc in
  (same + step + skip)%Qc.

(** What the backward recurrence adds up for the cell (t, s) of [a], from
    row [t + 1], in a table of [S] columns. *)
Definition backward_sum (skip_connect : list Z) (S : Z) (a : matrix) (t s : Z) : Qc :=
  let same := entry a (t + 1) s in
  let step := if bool_decide (s + 1 < S) then entry a (t + 1) (s + 1) else 0%Qc in
  let skip := if skip_at skip_connect s && bool_decide (s + 2 < S)
              then entry a (t + 1) (s + 2) else 0%Qc in
  (same + step + skip)%Qc.

(** The entry the loop of [extend_target_with_blank] appends at position
    [i]: 1 when [extended[i+2]] exists and differs from [extended[i]]. *)
Definition look_ahead (extended_symbols : list Z) (i : Z) : Z :=
  if bool_decide (i + 2 < len extended_symbols
                  /\ index extended_symbols i <> index extended_symbols (i + 2))
  then 1 else 0.

(** The two passes and the posterior, one after the other, on a
    two-dimensional [logits]. *)
Definition posterior_of (logits : matrix) (extended_symbols skip_connect : list Z)
    : result matrix :=
  let* alpha := CTC.get_forward_probs Qc CTC.item_float logits extended_symbols skip_connect in
  let* beta := CTC.get_backward_probs Qc CTC.item_float logits extended_symbols skip_connect in
  CTC.get_posterior_probs alpha beta.

(** [forward] and then [backward] on the object it leaves. *)
Definition forward_then_backward (log : Qc -> Qc) (logits : tensor)
    (target : list (list Z)) (input_lengths target_lengths : list Z)
    : result (tensor * CTCLoss.self) :=
  let* (_, this) :=
    CTCLoss.forward log (CTCLoss.init 0) logits target input_lengths target_lengths in
  CTCLoss.backward this.

(** The gradient [backward] returns after [forward], and the extended
    sequences [forward] leaves on the object. *)
Definition gradient (log : Qc -> Qc) (logits : tensor)
    (target : list (list Z)) (input_lengths target_lengths : list Z)
    : result tensor :=
  let* (dY, _) :=
    forward_then_backward log logits target input_lengths target_lengths in
  Ok dY.

Definition recorded_symbols (log : Qc -> Qc) (logits : tensor)
    (target : list (list Z)) (input_lengths target_lengths : list Z)
    : result (list (list Z)) :=
  let* (_, this) :=
    CTCLoss.forward log (CTCLoss.init 0) logits target input_lengths target_lengths in
  Ok (CTCLoss.extended_symbols this).

(** The call [m] raises nothing but [e0]. *)
Definition raises_only {A : Type} (e0 : exn) (m : result A) : Prop :=
  forall e, m = Raise e -> e = e0.

(** [a] is a three-dimensional array of shape (T, B, C). *)
Definition has_shape3 (a : tensor) (T B C : Z) : Prop :=
  len a = T /\ Forall (fun plane => has_shape plane B C) a.

(** [a[t, b, c]] as a number, for the places where it exists. *)
Definition entry3 (a : tensor) (t b c : Z) : Qc :=
  match get3 a t b c with
  | Ok x => x
  | Raise _ => 0%Qc
  end.

(** What the positions [ss] of the extended sequence that hold the class
    [c] contribute at time [t] for the sample [b]: the sum of
    [posterior_prob[t][s] / logits[t, b, c]] over them. *)
Definition class_mass (posterior_prob : matrix) (logits : tensor)
    (ext_symbols : list Z) (b t c : Z) (ss : list Z) : Qc :=
  sum (map (fun s => if bool_decide (index ext_symbols s = Ok c)
                     then (entry posterior_prob t s / entry3 logits t b c)%Qc
                     else 0%Qc) ss).

(** [logits[t, b, ext_symbols[s]]] as a number. *)
Definition emitted (logits : tensor) (ext_symbols : list Z) (b t s : Z) : Qc :=
  match index ext_symbols s with
  | Ok symbol => entry3 logits t b symbol
  | Raise _ => 0%Qc
  end.

End Table.
Import Table.

(** * Properties *)

(** ** The run-time *)
Section Runtime.

Context {A : Type}.
Implicit Types (l : list A).

Lemma position_lt (n k : Z) (i : nat) : position n k = Some i -> Z.of_nat i < n.
Proof.
  unfold position. repeat case_bool_decide; intros; simplify_eq; lia.
Qed.

Lemma index_ok l k : - len l <= k < len l -> exists x, index l k = Ok x.
Proof.
  intros Hk. unfold index, position, len in *.
  repeat case_bool_decide; try lia.
  - destruct (lookup_lt_is_Some_2 l (Z.to_nat k)) as [x ->]; [lia | eauto].
  - destruct (lookup_lt_is_Some_2 l (Z.to_nat (k + Z.of_nat (length l)))) as [x ->];
      [lia | eauto].
Qed.

Lemma index_nonneg (l : list A) (k : Z) :
  0 <= k ->
  index l k = match l !! Z.to_nat k with
              | Some x => Ok x
              | None => Raise IndexError
              end.
Proof.
  intros Hk. unfold index, position, len. case_bool_decide as Hin; [done|].
  rewrite bool_decide_eq_false_2 by lia.
  by rewrite lookup_ge_None_2 by lia.
Qed.

Lemma index_wrap (l : list A) (k : Z) :
  - len l <= k < 0 -> index l k = index l (k + len l).
Proof.
  intros Hk. unfold index, position.
  rewrite (bool_decide_eq_false_2 (0 <= k < len l)) by lia.
  rewrite (bool_decide_eq_true_2 (- len l <= k < 0)) by lia.
  by rewrite (bool_decide_eq_true_2 (0 <= k + len l < len l)) by lia.
Qed.

Lemma store_nonneg (l : list A) (k : Z) (v : A) :
  0 <= k < len l -> store l k v = Ok (<[Z.to_nat k := v]> l).
Proof.
  intros Hk. unfold store, position. by rewrite bool_decide_eq_true_2 by lia.
Qed.

Lemma store_wrap (l : list A) (k : Z) (v : A) :
  - len l <= k < 0 -> store l k v = store l (k + len l) v.
Proof.
  intros Hk. unfold store, position.
  rewrite (bool_decide_eq_false_2 (0 <= k < len l)) by lia.
  rewrite (bool_decide_eq_true_2 (- len l <= k < 0)) by lia.
  by rewrite (bool_decide_eq_true_2 (0 <= k + len l < len l)) by lia.
Qed.

Lemma index_elem (l : list A) (k : Z) (x : A) : index l k = Ok x -> x ∈ l.
Proof.
  unfold index. destruct (position (len l) k) as [i|]; [|done].
  destruct (l !! i) as [y|] eqn:Hy; [|done].
  intros [= <-]. by eapply list_elem_of_lookup_2.
Qed.

End Runtime.

(** ** [CTC.extend_target_with_blank] *)
Section ExtendTarget.

Variable this : CTC.self.

(** The extended sequence the first loop builds. *)
Lemma extended_symbols_foldl (target acc : list Z) :
  foldl (fun extended_symbols symbol =>
           (extended_symbols ++ [symbol]) ++ [CTC.BLANK this]) acc target
  = acc ++ flat_map (fun symbol => [symbol; CTC.BLANK this]) target.
Proof.
  revert acc. induction target as [|symbol target IH]; intros acc; simpl.
  - by rewrite app_nil_r.
  - rewrite IH. by rewrite <- !app_assoc.
Qed.

Lemma length_interleaved (target : list Z) :
  length (flat_map (fun symbol => [symbol; CTC.BLANK this]) target)
  = (2 * length target)%nat.
Proof. induction target as [|symbol target IH]; simpl; lia. Qed.

(** The second loop never leaves the list: its guard [i + 2 < N] covers
    both reads, and it appends one entry per position, the look-ahead
    comparison of that position. *)
Lemma skip_loop (ext suffix : list Z) (k : nat) (acc : list Z) :
  (k + length suffix <= length ext)%nat ->
  exists bits,
    for_each (imap (fun i x => (Z.of_nat (k + i), x)) suffix)
      (fun '(i, symbol) skip_connect =>
         let* differ :=
           if bool_decide (i + 2 < len ext) then
             let* here := index ext i in
             let* there := index ext (i + 2) in
             Ok (negb (bool_decide (here = there)))
           else Ok false in
         if differ then Ok (skip_connect ++ [1]) else Ok (skip_connect ++ [0]))
      acc = Ok (acc ++ bits)
    /\ length bits = length suffix
    /\ (forall j, (j < length suffix)%nat ->
          bits !! j = Some (look_ahead ext (Z.of_nat (k + j)))).
Proof.
  revert k acc. induction suffix as [|x suffix IH]; intros k acc Hk.
  - exists []. simpl. rewrite app_nil_r. split_and!; [done|done|]. intros j Hj. lia.
  - simpl in Hk. rewrite imap_cons.
    rewrite (imap_ext _ (fun i x => (Z.of_nat (S k + i), x)))
      by (intros; simpl; f_equal; lia).
    destruct (IH (S k) (acc ++ [1])) as (bits1 & Hrun1 & Hlen1 & Hbits1); [lia|].
    destruct (IH (S k) (acc ++ [0])) as (bits0 & Hrun0 & Hlen0 & Hbits0); [lia|].
    assert (Hshift : forall bits b,
      (forall j, (j < length suffix)%nat ->
         bits !! j = Some (look_ahead ext (Z.of_nat (S k + j)))) ->
      b = look_ahead ext (Z.of_nat k) ->
      forall j, (j < length (x :: suffix))%nat ->
        (b :: bits) !! j = Some (look_ahead ext (Z.of_nat (k + j)))).
    { intros bits b Hbits -> [|j] Hj; simpl in *.
      - by replace (k + 0)%nat with k by lia.
      - rewrite Hbits by lia. do 2 f_equal. lia. }
    cbn [for_each]. replace (k + 0)%nat with k by lia.
    case_bool_decide as Hguard; cbn [bind].
    + destruct (index_ok ext (Z.of_nat k)) as [here Hhere]; [unfold len in *; lia|].
      destruct (index_ok ext (Z.of_nat k + 2)) as [there Hthere]; [unfold len in *; lia|].
      rewrite Hhere, Hthere. cbn [bind].
      case_bool_decide as Heq; cbn [bind negb].
      * exists (0 :: bits0). rewrite Hrun0, <- app_assoc. simpl.
        split_and!; [done | auto |]. apply Hshift; [done|].
        unfold look_ahead. rewrite Hhere, Hthere.
        rewrite bool_decide_eq_false_2; [done|]. intros [_ Hne]. apply Hne. by subst.
      * exists (1 :: bits1). rewrite Hrun1, <- app_assoc. simpl.
        split_and!; [done | auto |]. apply Hshift; [done|].
        unfold look_ahead. rewrite Hhere, Hthere.
        rewrite bool_decide_eq_true_2; [done|]. split; [done|]. congruence.
    + exists (0 :: bits0). rewrite Hrun0, <- app_assoc. simpl.
      split_and!; [done | auto |]. apply Hshift; [done|].
      unfold look_ahead.
      rewrite bool_decide_eq_false_2; [done|]. intros [Hlt _]. done.
Qed.

(** C5, as the code has it: there is no validation in
    [extend_target_with_blank].  For every target, the empty one and one
    with any integers as labels included, the call returns: the blank,
    then each label followed by a blank, 2L+1 symbols, and a mask of as
    many entries. *)
Theorem extend_target_with_blank_total (target : list Z) :
  exists skip_connect,
    CTC.extend_target_with_blank this target
    = Ok (CTC.BLANK this :: flat_map (fun symbol => [symbol; CTC.BLANK this]) target,
          skip_connect)
    /\ len (CTC.BLANK this :: flat_map (fun symbol => [symbol; CTC.BLANK this]) target)
       = 2 * len target + 1
    /\ len skip_connect = 2 * len target + 1.
Proof.
  unfold CTC.extend_target_with_blank.
  rewrite extended_symbols_foldl. cbn [app].
  set (ext := CTC.BLANK this :: _).
  assert (Hlen : length ext = (2 * length target + 1)%nat).
  { subst ext. simpl. rewrite length_interleaved. lia. }
  destruct (skip_loop ext ext 0 []) as (bits & Hrun & Hbits & _); [simpl; lia|].
  exists bits. unfold enumerate.
  rewrite (imap_ext _ (fun i x => (Z.of_nat (0 + i), x))) by done.
  rewrite Hrun. cbn [bind app]. unfold len. repeat split; lia.
Qed.

(** The mask the code returns looks two positions ahead: its entry at [s]
    is 1 exactly when [s + 2] is a position of the extended sequence and
    [extended[s]] differs from [extended[s+2]]. *)
Lemma extend_target_with_blank_looks_ahead (target ext skip_connect : list Z) (s : Z) :
  CTC.extend_target_with_blank this target = Ok (ext, skip_connect) ->
  0 <= s < len ext ->
  index skip_connect s = Ok (look_ahead ext s).
Proof.
  unfold CTC.extend_target_with_blank.
  rewrite extended_symbols_foldl. cbn [app].
  set (ext0 := CTC.BLANK this :: _).
  destruct (skip_loop ext0 ext0 0 []) as (bits & Hrun & Hlen & Hbits); [simpl; lia|].
  unfold enumerate.
  rewrite (imap_ext _ (fun i x => (Z.of_nat (0 + i), x))) by done.
  rewrite Hrun. cbn [bind app]. intros [= <- <-] Hs.
  rewrite index_nonneg by lia. unfold len in Hs.
  rewrite Hbits by lia. do 2 f_equal. lia.
Qed.

End ExtendTarget.

(** C5 as stated fails: the empty target is extended to the single blank
    with the mask [0], and a label outside every vocabulary is
    interleaved like any other; neither call raises. *)
Lemma extend_target_with_blank_no_validation :
  CTC.extend_target_with_blank CTC.init_default [] = Ok ([0], [0])
  /\ CTC.extend_target_with_blank CTC.init_default [-5] = Ok ([0; -5; 0], [0; 0; 0])
  /\ ~ raises (CTC.extend_target_with_blank CTC.init_default [])
  /\ ~ raises (CTC.extend_target_with_blank CTC.init_default [-5]).
Proof.
  repeat split; try reflexivity; intros [e He]; vm_compute in He; discriminate.
Qed.

(** C2 at the example of the docstring, [B, IY, IY, F] as [1, 2, 2, 3]: the
    docstring announces the mask [0,0,0,1,0,0,0,1,0], set at [s] when
    [extended[s]] differs from [extended[s-2]]; the loop compares
    [extended[i]] with [extended[i+2]] and returns a mask that is set at
    position 1, below 2, and clear at position 3, where [extended[3]] does
    differ from [extended[1]]. *)
Theorem extend_target_with_blank_docstring_example :
  CTC.extend_target_with_blank CTC.init_default [1; 2; 2; 3]
  = Ok ([0; 1; 0; 2; 0; 2; 0; 3; 0], [0; 1; 0; 0; 0; 1; 0; 0; 0])
  /\ [0; 1; 0; 0; 0; 1; 0; 0; 0] <> [0; 0; 0; 1; 0; 0; 0; 1; 0]
  /\ skip_at [0; 1; 0; 0; 0; 1; 0; 0; 0] 1 = true
  /\ skip_at [0; 1; 0; 0; 0; 1; 0; 0; 0] 3 = false
  /\ index [0; 1; 0; 2; 0; 2; 0; 3; 0] 3 <> index [0; 1; 0; 2; 0; 2; 0; 3; 0] (3 - 2).
Proof. split_and!; [reflexivity | discriminate | reflexivity | reflexivity | discriminate]. Qed.

(** ** [CTC.get_posterior_probs] *)
Section Posterior.

Lemma stretch_same {A : Type} (n : Z) (l : list A) : len l = n -> stretch n l = l.
Proof.
  intros <-. unfold stretch, len. destruct l as [|x [|y l]]; done.
Qed.

Lemma ncols_shape {A : Type} (a : list (list A)) (T S : Z) :
  has_shape a T S -> 1 <= T -> ncols a = S.
Proof.
  intros [Hlen Hrows] HT. destruct a as [|row a]; unfold len in *; simpl in *; [lia|].
  by apply Forall_cons_1 in Hrows as [Hrow _].
Qed.

Lemma ncols_same {A B : Type} (a : list (list A)) (b : list (list B)) (T S : Z) :
  has_shape a T S -> has_shape b T S -> ncols a = ncols b.
Proof.
  intros [Hla Hra] [Hlb Hrb].
  destruct a as [|ra a], b as [|rb b]; unfold len in *; simpl in *; try lia.
  apply Forall_cons_1 in Hra as [Hra _]. apply Forall_cons_1 in Hrb as [Hrb _].
  unfold len. lia.
Qed.

Lemma zip_rows_shape (f : Qc -> Qc -> Qc) (a b : matrix) (T S : Z) :
  has_shape a T S -> has_shape b T S ->
  has_shape (zip_with (zip_with f) a b) T S.
Proof.
  intros [Hla Hra] [Hlb Hrb]. split.
  - unfold len in *. rewrite length_zip_with. lia.
  - clear Hla Hlb. revert b Hrb.
    induction Hra as [|ra a Hr _ IH]; intros b Hrb; [constructor|].
    destruct Hrb as [|rb b Hb Hrb]; simpl; constructor; auto.
    unfold len in *. rewrite length_zip_with. lia.
Qed.

Lemma zip_rows_stretch (f : Qc -> Qc -> Qc) (a b : matrix) (S : Z) :
  Forall (fun row => len row = S) a -> Forall (fun row => len row = S) b ->
  zip_with (fun ra rb => zip_with f (stretch S ra) (stretch S rb)) a b
  = zip_with (zip_with f) a b.
Proof.
  intros Ha. revert b. induction Ha as [|ra a Hr _ IH]; intros b Hb; [done|].
  destruct Hb as [|rb b Hrb Hb]; simpl; [done|].
  rewrite !stretch_same by done. f_equal. auto.
Qed.

(** On two tables of one shape [alpha * beta] is the entrywise product. *)
Lemma multiply_same_shape (alpha beta : matrix) (T S : Z) :
  has_shape alpha T S -> has_shape beta T S ->
  multiply alpha beta = Ok (zip_with (zip_with Qcmult) alpha beta).
Proof.
  intros Ha Hb. unfold multiply.
  rewrite <- (ncols_same alpha beta T S) by done.
  destruct Ha as [Hla Hra], Hb as [Hlb Hrb].
  unfold broadcast_dim. rewrite !bool_decide_eq_true_2 by congruence.
  rewrite !stretch_same by congruence.
  destruct (decide (1 <= T)) as [HT|HT].
  - rewrite (ncols_shape alpha T S) by done.
    by rewrite (zip_rows_stretch Qcmult alpha beta S).
  - destruct alpha; [done | unfold len in *; simpl in *; lia].
Qed.

(** The division of the posterior: the row sums are matched against the
    last axis of the table. *)
Lemma get_posterior_probs_unfold (alpha beta : matrix) (T S : Z) :
  has_shape alpha T S -> has_shape beta T S ->
  CTC.get_posterior_probs alpha beta
  = idivide (zip_with (zip_with Qcmult) alpha beta)
      (sum_axis1 (zip_with (zip_with Qcmult) alpha beta)).
Proof.
  intros Ha Hb. unfold CTC.get_posterior_probs.
  rewrite (multiply_same_shape alpha beta T S) by done. cbn [bind].
  by destruct (idivide _ _).
Qed.

(** C10: on tables of shape (T, S) with T, S > 1 and T <> S the division
    by the row sums raises the broadcasting error, and a table is
    returned only when T = S or T = 1 (or S = 1). *)
Theorem get_posterior_probs_shape_error (alpha beta : matrix) (T S : Z) :
  has_shape alpha T S -> has_shape beta T S -> 1 <= T ->
  (1 < T -> 1 < S -> T <> S -> CTC.get_posterior_probs alpha beta = Raise ValueError)
  /\ (forall gamma, CTC.get_posterior_probs alpha beta = Ok gamma ->
                    T = S \/ T = 1 \/ S = 1).
Proof.
  intros Ha Hb HT.
  rewrite (get_posterior_probs_unfold alpha beta T S) by done.
  pose proof (zip_rows_shape Qcmult alpha beta T S Ha Hb) as Hg.
  set (gamma0 := zip_with (zip_with Qcmult) alpha beta) in *.
  unfold idivide, sum_axis1.
  rewrite (ncols_shape gamma0 T S) by done.
  replace (len (map Np.sum gamma0)) with T
    by (destruct Hg as [<- _]; unfold len; by rewrite length_map).
  unfold broadcast_dim. split.
  - intros HT1 HS1 Hne. by rewrite !bool_decide_eq_false_2 by lia.
  - intros gamma. repeat case_bool_decide; intros; simplify_eq; auto.
Qed.

(** The method returns exactly when T = S or T = 1; a single column under
    several rows is refused as well. *)
Lemma get_posterior_probs_returns (alpha beta : matrix) (T S : Z) :
  has_shape alpha T S -> has_shape beta T S -> 1 <= T ->
  (exists gamma, CTC.get_posterior_probs alpha beta = Ok gamma) <-> T = S \/ T = 1.
Proof.
  intros Ha Hb HT.
  rewrite (get_posterior_probs_unfold alpha beta T S) by done.
  pose proof (zip_rows_shape Qcmult alpha beta T S Ha Hb) as Hg.
  set (gamma0 := zip_with (zip_with Qcmult) alpha beta) in *.
  unfold idivide, sum_axis1.
  rewrite (ncols_shape gamma0 T S) by done.
  replace (len (map Np.sum gamma0)) with T
    by (destruct Hg as [<- _]; unfold len; by rewrite length_map).
  unfold broadcast_dim.
  repeat case_bool_decide; split; try (intros [gamma Hgamma]; done); try lia;
    intros _; eauto.
Qed.


End Posterior.

(** Two tables of shape (2, 3). *)
Lemma get_posterior_probs_shape_error_witness :
  (1 < 2 -> 1 < 3 -> 2 <> 3 ->
   CTC.get_posterior_probs [[1; 1; 1]; [1; 1; 1]]%Qc [[1; 1; 1]; [1; 1; 1]]%Qc
   = Raise ValueError)
  /\ (forall gamma,
        CTC.get_posterior_probs [[1; 1; 1]; [1; 1; 1]]%Qc [[1; 1; 1]; [1; 1; 1]]%Qc
        = Ok gamma -> 2 = 3 \/ 2 = 1 \/ 3 = 1).
Proof.
  apply (get_posterior_probs_shape_error
           [[1; 1; 1]; [1; 1; 1]]%Qc [[1; 1; 1]; [1; 1; 1]]%Qc 2 3).
  - split; [reflexivity | repeat constructor].
  - split; [reflexivity | repeat constructor].
  - lia.
Defined.

(** ** The posterior of one time step *)
Section SingleRow.

Lemma sum_scaled (row : list Qc) (d : Qc) :
  Np.sum (map (fun x => (x / d)%Qc) row) = (Np.sum row / d)%Qc.
Proof.
  unfold Np.sum. induction row as [|x row IH]; simpl.
  - unfold Qcdiv. ring.
  - rewrite IH. unfold Qcdiv. ring.
Qed.

Lemma zip_with_replicate (row : list Qc) (d : Qc) :
  zip_with Qcdiv row (replicate (length row) d) = map (fun x => (x / d)%Qc) row.
Proof. induction row as [|x row IH]; simpl; [done|]. by rewrite IH. Qed.

(** With T = 1 the division does normalise the row: every entry is the
    product [alpha[0][s] * beta[0][s]] over the sum of the row, and the row
    sums to 1. *)
Lemma get_posterior_probs_one_step (alpha beta : list Qc) :
  len alpha = len beta ->
  Np.sum (zip_with Qcmult alpha beta) <> 0%Qc ->
  CTC.get_posterior_probs [alpha] [beta]
  = Ok [map (fun x => (x / Np.sum (zip_with Qcmult alpha beta))%Qc)
          (zip_with Qcmult alpha beta)]
  /\ Np.sum (map (fun x => (x / Np.sum (zip_with Qcmult alpha beta))%Qc)
               (zip_with Qcmult alpha beta)) = 1%Qc.
Proof.
  intros Hlen Hsum. split.
  - rewrite (get_posterior_probs_unfold [alpha] [beta] 1 (len alpha))
      by (split; [done | repeat constructor; done]).
    cbn [zip_with sum_axis1 map]. set (row := zip_with Qcmult alpha beta).
    assert (Hrow : len row = len alpha).
    { subst row. unfold len in *. rewrite length_zip_with. lia. }
    unfold idivide. cbn [ncols]. rewrite Hrow.
    replace (len [Np.sum row]) with 1 by done.
    unfold broadcast_dim. case_bool_decide as Hone.
    + rewrite bool_decide_eq_true_2 by done. cbn [map stretch].
      rewrite Hone. cbn [Z.to_nat Pos.to_nat Pos.iter_op Nat.add replicate].
      do 2 f_equal. rewrite <- zip_with_replicate. do 2 f_equal.
      unfold len in *. lia.
    + rewrite (bool_decide_eq_true_2 (1 = 1)) by done.
      rewrite bool_decide_eq_true_2 by done. cbn [map stretch].
      do 2 f_equal. rewrite <- zip_with_replicate. do 2 f_equal.
      unfold len in *. lia.
  - rewrite sum_scaled. by field.
Qed.

End SingleRow.

(** C1 at two inputs.  With T = S = 2, the rows of [alpha * beta] being
    [1, 1] and [1, 3], the row sums 2 and 4 divide the columns: the first row
    becomes [1/2, 1/4], which sums to 3/4.  With T = 2 and S = 3 no table is
    returned. *)
Theorem get_posterior_probs_not_row_normalized :
  CTC.get_posterior_probs [[1; 1]; [1; Q2Qc 3]]%Qc [[1; 1]; [1; 1]]%Qc
  = Ok [[Q2Qc 0.5; Q2Qc 0.25]; [Q2Qc 0.5; Q2Qc 0.75]]
  /\ Np.sum [Q2Qc 0.5; Q2Qc 0.25] = Q2Qc 0.75
  /\ Np.sum [Q2Qc 0.5; Q2Qc 0.25] <> 1%Qc
  /\ CTC.get_posterior_probs [[1; 1; 1]; [1; 1; 1]]%Qc [[1; 1; 1]; [1; 1; 1]]%Qc
     = Raise ValueError.
Proof. repeat split; compute_done. Qed.

(** ** Tables: reading and writing one cell *)
Section Cells.

Lemma entry_lookup (a : matrix) (t s : Z) :
  0 <= t -> 0 <= s ->
  entry a t s = match a !! Z.to_nat t with
                | Some row => match row !! Z.to_nat s with
                              | Some x => x
                              | None => 0%Qc
                              end
                | None => 0%Qc
                end.
Proof.
  intros Ht Hs. unfold entry, get2. rewrite index_nonneg by done.
  destruct (a !! Z.to_nat t) as [row|]; cbn [bind]; [|done].
  rewrite index_nonneg by done. by destruct (row !! Z.to_nat s).
Qed.

Variables T S : Z.

Lemma shape_row (a : matrix) (t : Z) :
  has_shape a T S -> 0 <= t < T ->
  exists row, a !! Z.to_nat t = Some row /\ len row = S.
Proof.
  intros [Hlen Hrows] Ht.
  destruct (lookup_lt_is_Some_2 a (Z.to_nat t)) as [row Hrow]; [unfold len in *; lia|].
  exists row. split; [done|].
  by apply (Forall_lookup_1 (fun row => len row = S) a (Z.to_nat t)).
Qed.

Lemma get2_entry (a : matrix) (t s : Z) :
  has_shape a T S -> 0 <= t < T -> 0 <= s < S ->
  get2 a t s = Ok (entry a t s).
Proof.
  intros Ha Ht Hs. destruct (shape_row a t Ha Ht) as (row & Hrow & Hlen).
  destruct (lookup_lt_is_Some_2 row (Z.to_nat s)) as [x Hx]; [unfold len in *; lia|].
  unfold entry, get2. rewrite index_nonneg, Hrow by lia. cbn [bind].
  by rewrite index_nonneg, Hx by lia.
Qed.

(** [a[t][s] = v] on a table of shape (T, S): the shape stays, the cell
    holds [v], every other cell is as before. *)
Lemma set2_spec (a : matrix) (t s : Z) (v : Qc) :
  has_shape a T S -> 0 <= t < T -> 0 <= s < S ->
  exists a',
    set2 a t s v = Ok a'
    /\ has_shape a' T S
    /\ entry a' t s = v
    /\ (forall t' s', 0 <= t' -> 0 <= s' -> (t', s') <> (t, s) ->
                      entry a' t' s' = entry a t' s').
Proof.
  intros Ha Ht Hs. destruct (shape_row a t Ha Ht) as (row & Hrow & Hlen).
  destruct Ha as [Hlena Hrows].
  exists (<[Z.to_nat t := <[Z.to_nat s := v]> row]> a). repeat split.
  - unfold set2. rewrite index_nonneg, Hrow by lia. cbn [bind].
    rewrite store_nonneg by lia. cbn [bind]. by rewrite store_nonneg by lia.
  - unfold len. by rewrite length_insert.
  - apply Forall_insert; [done|]. unfold len. by rewrite length_insert.
  - rewrite entry_lookup by lia.
    rewrite list_lookup_insert_eq by (unfold len in *; lia).
    by rewrite list_lookup_insert_eq by (unfold len in *; lia).
  - intros t' s' Ht' Hs' Hne. rewrite !entry_lookup by lia.
    destruct (decide (Z.to_nat t = Z.to_nat t')) as [Heq|Hneq].
    + rewrite <- Heq, Hrow. rewrite list_lookup_insert_eq by (unfold len in *; lia).
      rewrite list_lookup_insert_ne; [done|].
      intros Hs_eq. apply Hne. f_equal; lia.
    + by rewrite list_lookup_insert_ne.
Qed.

(** A negative column counts from the end of the row. *)
Lemma set2_wrap (a : matrix) (t s : Z) (v : Qc) :
  has_shape a T S -> 0 <= t < T -> - S <= s < 0 ->
  set2 a t s v = set2 a t (s + S) v.
Proof.
  intros Ha Ht Hs. destruct (shape_row a t Ha Ht) as (row & Hrow & Hlen).
  unfold set2. rewrite index_nonneg, Hrow by lia. cbn [bind].
  rewrite store_wrap by lia. by rewrite Hlen.
Qed.

Lemma zeros_shape : 0 <= T -> 0 <= S -> has_shape (zeros T S) T S.
Proof.
  intros HT HS. unfold zeros, zeros1, has_shape, len. split.
  - rewrite length_replicate. lia.
  - apply Forall_replicate. rewrite length_replicate. lia.
Qed.

Lemma entry_zeros (t s : Z) : 0 <= t -> 0 <= s -> entry (zeros T S) t s = 0%Qc.
Proof.
  intros Ht Hs. rewrite entry_lookup by done. unfold zeros, zeros1.
  destruct (replicate _ _ !! Z.to_nat t) as [row|] eqn:Hrow; [|done].
  apply lookup_replicate in Hrow as [-> _].
  destruct (replicate _ _ !! Z.to_nat s) as [x|] eqn:Hx; [|done].
  by apply lookup_replicate in Hx as [-> _].
Qed.

End Cells.

(** ** Loops that write one cell per step *)
Section RowLoop.

Variables T S : Z.

(** A loop over distinct columns [js] of row [t], whose step at [j] writes
    the cell (t, j) alone, with a value [V a j] that does not depend on
    the other cells of row [t]. *)
Lemma row_loop (body : Z -> matrix -> result matrix) (t : Z)
    (V : matrix -> Z -> Qc) (js : list Z) :
  NoDup js ->
  (forall j, j ∈ js -> 0 <= j) ->
  (forall a j, j ∈ js -> has_shape a T S ->
     exists a', body j a = Ok a' /\ has_shape a' T S /\ entry a' t j = V a j
       /\ (forall t' s', 0 <= t' -> 0 <= s' -> (t', s') <> (t, j) ->
                         entry a' t' s' = entry a t' s')) ->
  (forall a a' j, j ∈ js ->
     (forall t' s', 0 <= t' -> 0 <= s' -> t' <> t \/ s' = j ->
                    entry a' t' s' = entry a t' s') -> V a' j = V a j) ->
  forall a, has_shape a T S -> 0 <= t ->
  exists a',
    for_each js body a = Ok a' /\ has_shape a' T S
    /\ (forall j, j ∈ js -> entry a' t j = V a j)
    /\ (forall t' s', 0 <= t' -> 0 <= s' -> ~ (t' = t /\ s' ∈ js) ->
                      entry a' t' s' = entry a t' s').
Proof.
  intros Hnodup Hpos Hbody Hcong.
  induction js as [|j0 js IH]; intros a Ha Ht.
  - exists a. split_and!; [done|done| |done]. intros j Hj. by apply elem_of_nil in Hj.
  - pose proof (NoDup_cons_1_1 _ _ Hnodup) as Hj0.
    apply NoDup_cons_1_2 in Hnodup.
    destruct (Hbody a j0) as (a1 & Hrun1 & Ha1 & Hval1 & Hrest1);
      [apply elem_of_cons; auto | done |].
    destruct (IH Hnodup) with (a := a1) as (a' & Hrun & Ha' & Hval & Hrest); try done.
    { intros j Hj. apply Hpos, elem_of_cons. auto. }
    { intros a0 j Hj. apply Hbody, elem_of_cons. auto. }
    { intros a0 a0' j Hj. apply Hcong, elem_of_cons. auto. }
    exists a'. split_and!; [|done| |].
    + cbn [for_each]. rewrite Hrun1. cbn [bind]. done.
    + intros j Hj. apply elem_of_cons in Hj as [->|Hj].
      * rewrite Hrest; [done | done | |].
        { apply Hpos, elem_of_cons. auto. }
        { intros [_ Hin]. done. }
      * rewrite Hval by done. apply Hcong; [apply elem_of_cons; auto|].
        intros t' s' Ht' Hs' Hor. apply Hrest1; [done..|].
        intros Heq. simplify_eq. destruct Hor as [Hor|Hor]; [done|]. by subst.
    + intros t' s' Ht' Hs' Hnot. rewrite Hrest; [|done..|].
      * apply Hrest1; [done..|]. intros Heq. simplify_eq.
        apply Hnot. split; [done|]. apply elem_of_cons. auto.
      * intros [-> Hin]. apply Hnot. split; [done|]. apply elem_of_cons. auto.
Qed.

End RowLoop.

(** ** The two recurrences *)
Section Passes.

Variable E : Type.
Variable item : E -> result Qc.
Variable logits : list (list E).
Variables extended_symbols skip_connect : list Z.
Variables T S : Z.

(** The float the passes get for P(t, extended[s]). *)
Variable p : Z -> Z -> Qc.

Hypothesis Hskip : len skip_connect = S.
Hypothesis Hp : forall t s, 0 <= t < T -> 0 <= s < S ->
  exists e, CTC.emission E logits extended_symbols t s = Ok e /\ item e = Ok (p t s).

Lemma skip_at_index (s : Z) :
  0 <= s < S ->
  exists k, index skip_connect s = Ok k /\ skip_at skip_connect s = truthy k.
Proof.
  intros Hs. destruct (index_ok skip_connect s) as [k Hk]; [lia|].
  exists k. split; [done|]. unfold skip_at. by rewrite Hk.
Qed.

(** One step of either recurrence: the cell (t, s) receives the sum of up
    to three cells of the neighbouring row [t'], times P(t, extended[s]). *)
Lemma cell_step (a : matrix) (t s t' s1 s2 : Z) (g1 g2 : bool) :
  has_shape a T S -> 0 <= t < T -> 0 <= s < S -> 0 <= t' < T -> t' <> t ->
  (g1 = true -> 0 <= s1 < S) -> (g2 = true -> 0 <= s2 < S) ->
  exists a',
    (let* prev := get2 a t' s in
     let* a := set2 a t s prev in
     let* a := if g1 then
                 let* cur := get2 a t s in
                 let* prev := get2 a t' s1 in
                 set2 a t s (cur + prev)%Qc
               else Ok a in
     let* skip := index skip_connect s in
     let* a := if truthy skip && g2 then
                 let* cur := get2 a t s in
                 let* prev := get2 a t' s2 in
                 set2 a t s (cur + prev)%Qc
               else Ok a in
     let* cur := get2 a t s in
     let* e := CTC.emission E logits extended_symbols t s in
     let* p := item e in
     set2 a t s (cur * p)%Qc) = Ok a'
    /\ has_shape a' T S
    /\ entry a' t s
       = ((entry a t' s + (if g1 then entry a t' s1 else 0)
           + (if skip_at skip_connect s && g2 then entry a t' s2 else 0)) * p t s)%Qc
    /\ (forall u v, 0 <= u -> 0 <= v -> (u, v) <> (t, s) ->
                    entry a' u v = entry a u v).
Proof.
  intros Ha Ht Hs Ht' Hne Hg1 Hg2.
  assert (Hrow : forall v, (t', v) <> (t, s)) by (intros v Heq; simplify_eq).
  rewrite (get2_entry T S a t' s) by done. cbn [bind].
  destruct (set2_spec T S a t s (entry a t' s)) as (a1 & -> & Ha1 & Hv1 & Hr1);
    [done..|]. cbn [bind].
  assert (exists a2,
    (if g1 then
       let* cur := get2 a1 t s in
       let* prev := get2 a1 t' s1 in
       set2 a1 t s (cur + prev)%Qc
     else Ok a1) = Ok a2
    /\ has_shape a2 T S
    /\ entry a2 t s = (entry a t' s + (if g1 then entry a t' s1 else 0))%Qc
    /\ (forall u v, 0 <= u -> 0 <= v -> (u, v) <> (t, s) ->
                    entry a2 u v = entry a u v))
    as (a2 & -> & Ha2 & Hv2 & Hr2).
  { destruct g1.
    - specialize (Hg1 eq_refl).
      rewrite (get2_entry T S a1 t s), (get2_entry T S a1 t' s1) by done.
      cbn [bind].
      destruct (set2_spec T S a1 t s (entry a1 t s + entry a1 t' s1)%Qc)
        as (a2 & -> & Ha2 & Hv2 & Hr2); [done..|].
      exists a2. split_and!; [done|done| |].
      + rewrite Hv2, Hv1. by rewrite Hr1 by (done || lia).
      + intros u v Hu Hv Huv. rewrite Hr2 by done. by apply Hr1.
    - exists a1. split_and!; [done|done| |done]. rewrite Hv1. ring. }
  cbn [bind].
  destruct (skip_at_index s Hs) as (k & -> & ->). cbn [bind].
  assert (exists a3,
    (if truthy k && g2 then
       let* cur := get2 a2 t s in
       let* prev := get2 a2 t' s2 in
       set2 a2 t s (cur + prev)%Qc
     else Ok a2) = Ok a3
    /\ has_shape a3 T S
    /\ entry a3 t s = (entry a t' s + (if g1 then entry a t' s1 else 0)
                       + (if truthy k && g2 then entry a t' s2 else 0))%Qc
    /\ (forall u v, 0 <= u -> 0 <= v -> (u, v) <> (t, s) ->
                    entry a3 u v = entry a u v))
    as (a3 & -> & Ha3 & Hv3 & Hr3).
  { destruct (truthy k && g2) eqn:Hguard.
    - apply andb_true_iff in Hguard as [_ ->]. specialize (Hg2 eq_refl).
      rewrite (get2_entry T S a2 t s), (get2_entry T S a2 t' s2) by done.
      cbn [bind].
      destruct (set2_spec T S a2 t s (entry a2 t s + entry a2 t' s2)%Qc)
        as (a3 & -> & Ha3 & Hv3 & Hr3); [done..|].
      exists a3. split_and!; [done|done| |].
      + rewrite Hv3, Hv2. by rewrite Hr2 by (done || lia).
      + intros u v Hu Hv Huv. rewrite Hr3 by done. by apply Hr2.
    - exists a2. split_and!; [done|done| |done]. rewrite Hv2. ring. }
  cbn [bind].
  rewrite (get2_entry T S a3 t s) by done. cbn [bind].
  destruct (Hp t s Ht Hs) as (e & -> & Hitem). cbn [bind]. rewrite Hitem. cbn [bind].
  destruct (set2_spec T S a3 t s (entry a3 t s * p t s)%Qc)
    as (a4 & -> & Ha4 & Hv4 & Hr4); [done..|].
  exists a4. split_and!; [done|done| |].
  - by rewrite Hv4, Hv3.
  - intros u v Hu Hv Huv. rewrite Hr4 by done. by apply Hr3.
Qed.

(** One step of the division loop. *)
Lemma divide_step (a : matrix) (t s : Z) :
  has_shape a T S -> 0 <= t < T -> 0 <= s < S ->
  exists a',
    (let* cur := get2 a t s in
     let* e := CTC.emission E logits extended_symbols t s in
     let* p := item e in
     set2 a t s (cur / p)%Qc) = Ok a'
    /\ has_shape a' T S
    /\ entry a' t s = (entry a t s / p t s)%Qc
    /\ (forall u v, 0 <= u -> 0 <= v -> (u, v) <> (t, s) ->
                    entry a' u v = entry a u v).
Proof.
  intros Ha Ht Hs.
  rewrite (get2_entry T S a t s) by done. cbn [bind].
  destruct (Hp t s Ht Hs) as (e & -> & Hitem). cbn [bind]. rewrite Hitem. cbn [bind].
  destruct (set2_spec T S a t s (entry a t s / p t s)%Qc)
    as (a1 & -> & Ha1 & Hv1 & Hr1); [done..|].
  by exists a1.
Qed.

(** The sums read one neighbouring row only. *)
Lemma forward_sum_ext (a a' : matrix) (t s : Z) :
  1 <= t -> 0 <= s ->
  (forall v, 0 <= v -> entry a' (t - 1) v = entry a (t - 1) v) ->
  forward_sum skip_connect a' t s = forward_sum skip_connect a t s.
Proof.
  intros Ht Hs Hrow. unfold forward_sum.
  rewrite (Hrow s) by lia.
  repeat case_bool_decide; rewrite ?andb_false_r, ?Hrow by lia; done.
Qed.

Lemma backward_sum_ext (a a' : matrix) (t s : Z) :
  0 <= t -> 0 <= s ->
  (forall v, 0 <= v -> entry a' (t + 1) v = entry a (t + 1) v) ->
  backward_sum skip_connect S a' t s = backward_sum skip_connect S a t s.
Proof.
  intros Ht Hs Hrow. unfold backward_sum. by rewrite !Hrow by lia.
Qed.

(** The inner loop of [get_forward_probs] at row [t]. *)
Lemma forward_row (a : matrix) (t : Z) :
  has_shape a T S -> 1 <= t < T ->
  exists a',
    for_each (range 0 S) (fun s alpha =>
      let* prev := get2 alpha (t - 1) s in
      let* alpha := set2 alpha t s prev in
      let* alpha :=
        if bool_decide (s - 1 >= 0) then
          let* cur := get2 alpha t s in
          let* prev := get2 alpha (t - 1) (s - 1) in
          set2 alpha t s (cur + prev)%Qc
        else Ok alpha in
      let* skip := index skip_connect s in
      let* alpha :=
        if truthy skip && bool_decide (s - 2 >= 0) then
          let* cur := get2 alpha t s in
          let* prev := get2 alpha (t - 1) (s - 2) in
          set2 alpha t s (cur + prev)%Qc
        else Ok alpha in
      let* cur := get2 alpha t s in
      let* e := CTC.emission E logits extended_symbols t s in
      let* p := item e in
      set2 alpha t s (cur * p)%Qc) a = Ok a'
    /\ has_shape a' T S
    /\ (forall s, 0 <= s < S ->
          entry a' t s = (forward_sum skip_connect a t s * p t s)%Qc)
    /\ (forall u v, 0 <= u -> 0 <= v -> u <> t -> entry a' u v = entry a u v).
Proof.
  intros Ha Ht.
  edestruct (row_loop T S) with
    (t := t) (V := fun a s => (forward_sum skip_connect a t s * p t s)%Qc)
    (js := range 0 S) (a := a) as (a' & Hrun & Ha' & Hval & Hrest);
    [| | | |exact Ha| |].
  - apply NoDup_seqZ.
  - intros j Hj. apply elem_of_seqZ in Hj. lia.
  - intros a0 j Hj Ha0. apply elem_of_seqZ in Hj.
    apply (cell_step a0 t j (t - 1) (j - 1) (j - 2)
             (bool_decide (j - 1 >= 0)) (bool_decide (j - 2 >= 0)));
      try done; try lia.
    + intros Hg. apply bool_decide_eq_true_1 in Hg. lia.
    + intros Hg. apply bool_decide_eq_true_1 in Hg. lia.
  - intros a0 a0' j Hj Hagree. apply elem_of_seqZ in Hj. simpl. f_equal.
    apply forward_sum_ext; [lia..|]. intros v Hv. apply Hagree; [lia|done|]. left. lia.
  - lia.
  - exists a'. split_and!; [exact Hrun|done| |].
    + intros s Hs. apply Hval, elem_of_seqZ. lia.
    + intros u v Hu Hv Hne. apply Hrest; [done..|]. intros [? _]. done.
Qed.

(** The outer loop of [get_forward_probs], over the rows [t0 .. t0+n-1]. *)
Lemma forward_rows (n : nat) : forall (t0 : Z) (a : matrix),
  has_shape a T S -> 1 <= t0 -> t0 + Z.of_nat n <= T ->
  exists a',
    for_each (seqZ t0 (Z.of_nat n)) (fun t alpha =>
      for_each (range 0 S) (fun s alpha =>
        let* prev := get2 alpha (t - 1) s in
        let* alpha := set2 alpha t s prev in
        let* alpha :=
          if bool_decide (s - 1 >= 0) then
            let* cur := get2 alpha t s in
            let* prev := get2 alpha (t - 1) (s - 1) in
            set2 alpha t s (cur + prev)%Qc
          else Ok alpha in
        let* skip := index skip_connect s in
        let* alpha :=
          if truthy skip && bool_decide (s - 2 >= 0) then
            let* cur := get2 alpha t s in
            let* prev := get2 alpha (t - 1) (s - 2) in
            set2 alpha t s (cur + prev)%Qc
          else Ok alpha in
        let* cur := get2 alpha t s in
        let* e := CTC.emission E logits extended_symbols t s in
        let* p := item e in
        set2 alpha t s (cur * p)%Qc) alpha) a = Ok a'
    /\ has_shape a' T S
    /\ (forall t s, t0 <= t < t0 + Z.of_nat n -> 0 <= s < S ->
          entry a' t s = (forward_sum skip_connect a' t s * p t s)%Qc)
    /\ (forall u v, 0 <= u < t0 -> 0 <= v -> entry a' u v = entry a u v).
Proof.
  induction n as [|n IH]; intros t0 a Ha Ht0 Hn.
  - exists a. split_and!; [done|done| |done]. intros t s Ht. lia.
  - rewrite seqZ_cons by lia.
    replace (Z.pred (Z.of_nat (Datatypes.S n))) with (Z.of_nat n) by lia.
    destruct (forward_row a t0) as (a1 & Hrun1 & Ha1 & Hval1 & Hrest1); [done|lia|].
    destruct (IH (Z.succ t0) a1) as (a' & Hrun & Ha' & Hval & Hrest); [done|lia|lia|].
    exists a'. split_and!; [|done| |].
    + cbn [for_each]. rewrite Hrun1. cbn [bind]. exact Hrun.
    + intros t s Ht Hs. destruct (decide (t = t0)) as [->|Hne].
      * rewrite Hrest, Hval1 by lia. f_equal. symmetry.
        apply forward_sum_ext; [lia..|]. intros v Hv.
        rewrite Hrest by lia. apply Hrest1; lia.
      * apply Hval; lia.
    + intros u v Hu Hv. rewrite Hrest by lia. apply Hrest1; lia.
Qed.

Lemma reversed_range_cons (n : nat) :
  reversed (range 0 (Z.of_nat (Datatypes.S n)))
  = Z.of_nat n :: reversed (range 0 (Z.of_nat n)).
Proof.
  unfold reversed, range. rewrite !Z.sub_0_r, seqZ_S, reverse_snoc.
  by rewrite Z.add_0_l.
Qed.

Lemma reversed_range_elem (n j : Z) : j ∈ reversed (range 0 n) <-> 0 <= j < n.
Proof.
  unfold reversed, range. rewrite elem_of_reverse, elem_of_seqZ. lia.
Qed.

Lemma reversed_range_NoDup (n : Z) : NoDup (reversed (range 0 n)).
Proof. unfold reversed, range. rewrite reverse_Permutation. apply NoDup_seqZ. Qed.

(** The inner loop of the recurrence of [get_backward_probs] at row [t]. *)
Lemma backward_row (a : matrix) (t : Z) :
  has_shape a T S -> 0 <= t < T - 1 ->
  exists a',
    for_each (reversed (range 0 S)) (fun s beta =>
      let* next := get2 beta (t + 1) s in
      let* beta := set2 beta t s next in
      let* beta :=
        if bool_decide (s + 1 < S) then
          let* cur := get2 beta t s in
          let* next := get2 beta (t + 1) (s + 1) in
          set2 beta t s (cur + next)%Qc
        else Ok beta in
      let* skip := index skip_connect s in
      let* beta :=
        if truthy skip && bool_decide (s + 2 < S) then
          let* cur := get2 beta t s in
          let* next := get2 beta (t + 1) (s + 2) in
          set2 beta t s (cur + next)%Qc
        else Ok beta in
      let* cur := get2 beta t s in
      let* e := CTC.emission E logits extended_symbols t s in
      let* p := item e in
      set2 beta t s (cur * p)%Qc) a = Ok a'
    /\ has_shape a' T S
    /\ (forall s, 0 <= s < S ->
          entry a' t s = (backward_sum skip_connect S a t s * p t s)%Qc)
    /\ (forall u v, 0 <= u -> 0 <= v -> u <> t -> entry a' u v = entry a u v).
Proof.
  intros Ha Ht.
  edestruct (row_loop T S) with
    (t := t) (V := fun a s => (backward_sum skip_connect S a t s * p t s)%Qc)
    (js := reversed (range 0 S)) (a := a) as (a' & Hrun & Ha' & Hval & Hrest);
    [| | | |exact Ha| |].
  - apply reversed_range_NoDup.
  - intros j Hj. apply reversed_range_elem in Hj. lia.
  - intros a0 j Hj Ha0. apply reversed_range_elem in Hj.
    apply (cell_step a0 t j (t + 1) (j + 1) (j + 2)
             (bool_decide (j + 1 < S)) (bool_decide (j + 2 < S)));
      try done; try lia.
    + intros Hg. apply bool_decide_eq_true_1 in Hg. lia.
    + intros Hg. apply bool_decide_eq_true_1 in Hg. lia.
  - intros a0 a0' j Hj Hagree. apply reversed_range_elem in Hj. simpl. f_equal.
    apply backward_sum_ext; [lia..|]. intros v Hv. apply Hagree; [lia|done|]. left. lia.
  - lia.
  - exists a'. split_and!; [exact Hrun|done| |].
    + intros s Hs. apply Hval, reversed_range_elem. lia.
    + intros u v Hu Hv Hne. apply Hrest; [done..|]. intros [? _]. done.
Qed.

(** The outer loop of the recurrence, over the rows [n-1] down to 0. *)
Lemma backward_rows (n : nat) : forall (a : matrix),
  has_shape a T S -> Z.of_nat n <= T - 1 ->
  exists a',
    for_each (reversed (range 0 (Z.of_nat n))) (fun t beta =>
      for_each (reversed (range 0 S)) (fun s beta =>
        let* next := get2 beta (t + 1) s in
        let* beta := set2 beta t s next in
        let* beta :=
          if bool_decide (s + 1 < S) then
            let* cur := get2 beta t s in
            let* next := get2 beta (t + 1) (s + 1) in
            set2 beta t s (cur + next)%Qc
          else Ok beta in
        let* skip := index skip_connect s in
        let* beta :=
          if truthy skip && bool_decide (s + 2 < S) then
            let* cur := get2 beta t s in
            let* next := get2 beta (t + 1) (s + 2) in
            set2 beta t s (cur + next)%Qc
          else Ok beta in
        let* cur := get2 beta t s in
        let* e := CTC.emission E logits extended_symbols t s in
        let* p := item e in
        set2 beta t s (cur * p)%Qc) beta) a = Ok a'
    /\ has_shape a' T S
    /\ (forall t s, 0 <= t < Z.of_nat n -> 0 <= s < S ->
          entry a' t s = (backward_sum skip_connect S a' t s * p t s)%Qc)
    /\ (forall u v, Z.of_nat n <= u -> 0 <= v -> entry a' u v = entry a u v).
Proof.
  induction n as [|n IH]; intros a Ha Hn.
  - exists a. split_and!; [done|done| |done]. intros t s Ht. lia.
  - rewrite reversed_range_cons.
    destruct (backward_row a (Z.of_nat n)) as (a1 & Hrun1 & Ha1 & Hval1 & Hrest1);
      [done|lia|].
    destruct (IH a1) as (a' & Hrun & Ha' & Hval & Hrest); [done|lia|].
    exists a'. split_and!; [|done| |].
    + cbn [for_each]. rewrite Hrun1. cbn [bind]. exact Hrun.
    + intros t s Ht Hs. destruct (decide (t = Z.of_nat n)) as [->|Hne].
      * rewrite Hrest, Hval1 by lia. f_equal. symmetry.
        apply backward_sum_ext; [lia..|]. intros v Hv.
        rewrite Hrest by lia. apply Hrest1; lia.
      * apply Hval; lia.
    + intros u v Hu Hv. rewrite Hrest by lia. apply Hrest1; lia.
Qed.

(** The inner loop of the division at row [t]. *)
Lemma divide_row (a : matrix) (t : Z) :
  has_shape a T S -> 0 <= t < T ->
  exists a',
    for_each (reversed (range 0 S)) (fun s beta =>
      let* cur := get2 beta t s in
      let* e := CTC.emission E logits extended_symbols t s in
      let* p := item e in
      set2 beta t s (cur / p)%Qc) a = Ok a'
    /\ has_shape a' T S
    /\ (forall s, 0 <= s < S -> entry a' t s = (entry a t s / p t s)%Qc)
    /\ (forall u v, 0 <= u -> 0 <= v -> u <> t -> entry a' u v = entry a u v).
Proof.
  intros Ha Ht.
  edestruct (row_loop T S) with
    (t := t) (V := fun a s => (entry a t s / p t s)%Qc)
    (js := reversed (range 0 S)) (a := a) as (a' & Hrun & Ha' & Hval & Hrest);
    [| | | |exact Ha| |].
  - apply reversed_range_NoDup.
  - intros j Hj. apply reversed_range_elem in Hj. lia.
  - intros a0 j Hj Ha0. apply reversed_range_elem in Hj.
    apply (divide_step a0 t j); try done; lia.
  - intros a0 a0' j Hj Hagree. apply reversed_range_elem in Hj. simpl. f_equal.
    apply Hagree; [lia..|]. by right.
  - lia.
  - exists a'. split_and!; [exact Hrun|done| |].
    + intros s Hs. apply Hval, reversed_range_elem. lia.
    + intros u v Hu Hv Hne. apply Hrest; [done..|]. intros [? _]. done.
Qed.

(** The outer loop of the division, over the rows [n-1] down to 0: each of
    their cells is divided once. *)
Lemma divide_rows (n : nat) : forall (a : matrix),
  has_shape a T S -> Z.of_nat n <= T ->
  exists a',
    for_each (reversed (range 0 (Z.of_nat n))) (fun t beta =>
      for_each (reversed (range 0 S)) (fun s beta =>
        let* cur := get2 beta t s in
        let* e := CTC.emission E logits extended_symbols t s in
        let* p := item e in
        set2 beta t s (cur / p)%Qc) beta) a = Ok a'
    /\ has_shape a' T S
    /\ (forall t s, 0 <= t < Z.of_nat n -> 0 <= s < S ->
          entry a' t s = (entry a t s / p t s)%Qc)
    /\ (forall u v, Z.of_nat n <= u -> 0 <= v -> entry a' u v = entry a u v).
Proof.
  induction n as [|n IH]; intros a Ha Hn.
  - exists a. split_and!; [done|done| |done]. intros t s Ht. lia.
  - rewrite reversed_range_cons.
    destruct (divide_row a (Z.of_nat n)) as (a1 & Hrun1 & Ha1 & Hval1 & Hrest1);
      [done|lia|].
    destruct (IH a1) as (a' & Hrun & Ha' & Hval & Hrest); [done|lia|].
    exists a'. split_and!; [|done| |].
    + cbn [for_each]. rewrite Hrun1. cbn [bind]. exact Hrun.
    + intros t s Ht Hs. destruct (decide (t = Z.of_nat n)) as [->|Hne].
      * by rewrite Hrest, Hval1 by lia.
      * rewrite Hval by lia. f_equal. apply Hrest1; lia.
    + intros u v Hu Hv. rewrite Hrest by lia. apply Hrest1; lia.
Qed.

Hypothesis HT : len logits = T.
Hypothesis HS : len extended_symbols = S.

(** A negative position in the extended sequence counts from its end. *)
Lemma emission_wrap (t s : Z) :
  - S <= s < 0 ->
  CTC.emission E logits extended_symbols t s
  = CTC.emission E logits extended_symbols t (s + S).
Proof.
  intros Hs. unfold CTC.emission.
  destruct (index logits t); cbn [bind]; [|done].
  rewrite index_wrap by lia. by rewrite HS.
Qed.

(** [get_forward_probs] as a whole. *)
Lemma get_forward_probs_table :
  1 <= T -> 1 < S ->
  exists alpha,
    CTC.get_forward_probs E item logits extended_symbols skip_connect = Ok alpha
    /\ has_shape alpha T S
    /\ entry alpha 0 0 = p 0 0
    /\ entry alpha 0 1 = p 0 1
    /\ (forall s, 2 <= s < S -> entry alpha 0 s = 0%Qc)
    /\ (forall t s, 1 <= t < T -> 0 <= s < S ->
          entry alpha t s = (forward_sum skip_connect alpha t s * p t s)%Qc).
Proof.
  intros HT1 HS1. unfold CTC.get_forward_probs. cbv zeta. rewrite HT, HS.
  destruct (Hp 0 0) as (e0 & -> & Hi0); [lia..|]. cbn [bind]. rewrite Hi0. cbn [bind].
  destruct (set2_spec T S (zeros T S) 0 0 (p 0 0)) as (a1 & -> & Ha1 & Hv1 & Hr1);
    [apply zeros_shape; lia | lia | lia |]. cbn [bind].
  destruct (Hp 0 1) as (e1 & -> & Hi1); [lia..|]. cbn [bind]. rewrite Hi1. cbn [bind].
  destruct (set2_spec T S a1 0 1 (p 0 1)) as (a2 & -> & Ha2 & Hv2 & Hr2);
    [done | lia | lia |]. cbn [bind].
  unfold range at 1. replace (T - 1) with (Z.of_nat (Z.to_nat (T - 1))) by lia.
  destruct (forward_rows (Z.to_nat (T - 1)) 1 a2) as (a' & Hrun & Ha' & Hval & Hrest);
    [done | lia | lia |].
  exists a'. split_and!; [exact Hrun | done | | | |].
  - rewrite Hrest, Hr2 by (lia || (intros Heq; simplify_eq)). done.
  - rewrite Hrest by lia. done.
  - intros s Hs. rewrite Hrest, Hr2, Hr1 by (lia || (intros Heq; simplify_eq; lia)).
    apply entry_zeros; lia.
  - intros t s Ht Hs. apply Hval; lia.
Qed.

(** The first part of [get_backward_probs]. *)
Lemma backward_table_rows :
  1 <= T -> 1 < S ->
  exists raw,
    CTC.backward_table E item logits extended_symbols skip_connect = Ok raw
    /\ has_shape raw T S
    /\ entry raw (T - 1) (S - 1) = p (T - 1) (S - 1)
    /\ entry raw (T - 1) (S - 2) = p (T - 1) (S - 2)
    /\ (forall s, 0 <= s < S - 2 -> entry raw (T - 1) s = 0%Qc)
    /\ (forall t s, 0 <= t < T - 1 -> 0 <= s < S ->
          entry raw t s = (backward_sum skip_connect S raw t s * p t s)%Qc).
Proof.
  intros HT1 HS1. unfold CTC.backward_table. cbv zeta. rewrite HT, HS.
  rewrite (emission_wrap (T - 1) (-1)) by lia.
  replace (-1 + S) with (S - 1) by lia.
  destruct (Hp (T - 1) (S - 1)) as (e0 & -> & Hi0); [lia..|].
  cbn [bind]. rewrite Hi0. cbn [bind].
  rewrite (set2_wrap T S) by (lia || apply zeros_shape; lia).
  replace (-1 + S) with (S - 1) by lia.
  destruct (set2_spec T S (zeros T S) (T - 1) (S - 1) (p (T - 1) (S - 1)))
    as (a1 & -> & Ha1 & Hv1 & Hr1); [apply zeros_shape; lia | lia | lia |].
  cbn [bind].
  rewrite (emission_wrap (T - 1) (-2)) by lia.
  replace (-2 + S) with (S - 2) by lia.
  destruct (Hp (T - 1) (S - 2)) as (e1 & -> & Hi1); [lia..|].
  cbn [bind]. rewrite Hi1. cbn [bind].
  rewrite (set2_wrap T S) by (lia || done).
  replace (-2 + S) with (S - 2) by lia.
  destruct (set2_spec T S a1 (T - 1) (S - 2) (p (T - 1) (S - 2)))
    as (a2 & -> & Ha2 & Hv2 & Hr2); [done | lia | lia |].
  cbn [bind].
  destruct (backward_rows (Z.to_nat (T - 1)) a2) as (a' & Hrun & Ha' & Hval & Hrest);
    [done | lia |].
  rewrite Z2Nat.id in Hrun, Hval, Hrest by lia.
  exists a'. split_and!; [exact Hrun | done | | | |].
  - rewrite Hrest, Hr2 by (lia || (intros Heq; simplify_eq; lia)). done.
  - rewrite Hrest by lia. done.
  - intros s Hs. rewrite Hrest, Hr2, Hr1 by (lia || (intros Heq; simplify_eq; lia)).
    apply entry_zeros; lia.
  - intros t s Ht Hs. apply Hval; lia.
Qed.

(** [get_backward_probs] as a whole: the table of the first part, every
    cell of it divided once. *)
Lemma get_backward_probs_table :
  1 <= T -> 1 < S ->
  exists raw beta,
    CTC.backward_table E item logits extended_symbols skip_connect = Ok raw
    /\ CTC.get_backward_probs E item logits extended_symbols skip_connect = Ok beta
    /\ has_shape raw T S
    /\ has_shape beta T S
    /\ entry raw (T - 1) (S - 1) = p (T - 1) (S - 1)
    /\ entry raw (T - 1) (S - 2) = p (T - 1) (S - 2)
    /\ (forall s, 0 <= s < S - 2 -> entry raw (T - 1) s = 0%Qc)
    /\ (forall t s, 0 <= t < T - 1 -> 0 <= s < S ->
          entry raw t s = (backward_sum skip_connect S raw t s * p t s)%Qc)
    /\ (forall t s, 0 <= t < T -> 0 <= s < S ->
          entry beta t s = (entry raw t s / p t s)%Qc).
Proof.
  intros HT1 HS1.
  destruct (backward_table_rows HT1 HS1) as (raw & Hraw & Hshape & Hlast & Hlast' & Hzero & Hrec).
  unfold CTC.get_backward_probs. cbv zeta. rewrite HT, HS, Hraw. cbn [bind].
  destruct (divide_rows (Z.to_nat T) raw) as (beta & Hrun & Hbeta & Hval & _);
    [done | lia |].
  rewrite Z2Nat.id in Hrun, Hval by lia.
  exists raw, beta. split_and!; done.
Qed.

End Passes.

(** ** The passes on an emission matrix *)
Section OnMatrices.

Variable logits : matrix.
Variables extended_symbols skip_connect : list Z.
Variables T S C : Z.

Hypothesis Hlogits : has_shape logits T C.
Hypothesis Hext : len extended_symbols = S.
Hypothesis Hsymbols : Forall (fun k => - C <= k < C) extended_symbols.

(** Every P(t, extended[s]) of the table exists. *)
Lemma emission_float (t s : Z) :
  0 <= t < T -> 0 <= s < S ->
  exists e, CTC.emission Qc logits extended_symbols t s = Ok e
            /\ CTC.item_float e = Ok (P logits extended_symbols t s).
Proof.
  intros Ht Hs.
  destruct (shape_row T C logits t Hlogits Ht) as (row & Hrow & Hlen).
  destruct (lookup_lt_is_Some_2 extended_symbols (Z.to_nat s)) as [k Hk];
    [unfold len in *; lia|].
  pose proof (Forall_lookup_1 _ _ _ _ Hsymbols Hk) as Hrange. simpl in Hrange.
  destruct (index_ok row k) as [x Hx]; [lia|].
  assert (Hem : CTC.emission Qc logits extended_symbols t s = Ok x).
  { unfold CTC.emission. rewrite index_nonneg, Hrow by lia. cbn [bind].
    rewrite index_nonneg, Hk by lia. cbn [bind]. done. }
  exists x. split; [done|]. unfold P. by rewrite Hem.
Qed.

(** When every emission is positive, so is every P(t, extended[s]). *)
Lemma P_positive (t s : Z) :
  Forall (Forall (fun x => (0 < x)%Qc)) logits ->
  0 <= t < T -> 0 <= s < S ->
  (0 < P logits extended_symbols t s)%Qc.
Proof.
  intros Hpos Ht Hs.
  destruct (emission_float t s Ht Hs) as (x & Hem & _).
  unfold P. rewrite Hem. unfold CTC.emission in Hem.
  destruct (index logits t) as [row|] eqn:Hrow; cbn [bind] in Hem; [|done].
  destruct (index extended_symbols s) as [k|]; cbn [bind] in Hem; [|done].
  apply index_elem, list_elem_of_In in Hrow. apply index_elem, list_elem_of_In in Hem.
  rewrite Forall_forall in Hpos. specialize (Hpos row Hrow).
  rewrite Forall_forall in Hpos. by apply Hpos.
Qed.

End OnMatrices.

(** C8: on an emission matrix of T >= 1 rows, an extended sequence of S > 1
    symbols that index its columns and a mask of S entries,
    [get_forward_probs] returns a table of shape (T, S) whose row 0 holds
    P(0, extended[0]), P(0, extended[1]) and zeros, and whose cell (t, s),
    for t in [1, T), is the sum of [alpha[t-1][s]], of [alpha[t-1][s-1]]
    when s >= 1 and of [alpha[t-1][s-2]] when the mask is set at s and
    s >= 2, times P(t, extended[s]). *)
Theorem get_forward_probs_recurrence (logits : matrix)
    (extended_symbols skip_connect : list Z) (T S C : Z) :
  has_shape logits T C -> 1 <= T ->
  len extended_symbols = S -> 1 < S ->
  Forall (fun k => - C <= k < C) extended_symbols ->
  len skip_connect = S ->
  exists alpha,
    CTC.get_forward_probs Qc CTC.item_float logits extended_symbols skip_connect
    = Ok alpha
    /\ has_shape alpha T S
    /\ entry alpha 0 0 = P logits extended_symbols 0 0
    /\ entry alpha 0 1 = P logits extended_symbols 0 1
    /\ (forall s, 2 <= s < S -> entry alpha 0 s = 0%Qc)
    /\ (forall t s, 1 <= t < T -> 0 <= s < S ->
          entry alpha t s
          = (forward_sum skip_connect alpha t s * P logits extended_symbols t s)%Qc).
Proof.
  intros Hlogits HT Hext HS Hsymbols Hskip.
  apply (get_forward_probs_table Qc CTC.item_float logits extended_symbols
           skip_connect T S (P logits extended_symbols)); try done.
  - intros t s Ht Hs. by apply (emission_float logits extended_symbols T S C).
  - by destruct Hlogits.
Qed.

(** Three time steps over the classes blank and A, the target [A]. *)
Lemma get_forward_probs_recurrence_witness :
  exists alpha,
    CTC.get_forward_probs Qc CTC.item_float
      [[Q2Qc 0.5; Q2Qc 0.5]; [Q2Qc 0.25; Q2Qc 0.75]; [Q2Qc 0.125; Q2Qc 0.875]]
      [0; 1; 0] [0; 0; 0]
    = Ok alpha
    /\ has_shape alpha 3 3
    /\ entry alpha 0 0
       = P [[Q2Qc 0.5; Q2Qc 0.5]; [Q2Qc 0.25; Q2Qc 0.75]; [Q2Qc 0.125; Q2Qc 0.875]]
           [0; 1; 0] 0 0
    /\ entry alpha 0 1
       = P [[Q2Qc 0.5; Q2Qc 0.5]; [Q2Qc 0.25; Q2Qc 0.75]; [Q2Qc 0.125; Q2Qc 0.875]]
           [0; 1; 0] 0 1
    /\ (forall s, 2 <= s < 3 -> entry alpha 0 s = 0%Qc)
    /\ (forall t s, 1 <= t < 3 -> 0 <= s < 3 ->
          entry alpha t s
          = (forward_sum [0; 0; 0]%Z alpha t s
             * P [[Q2Qc 0.5; Q2Qc 0.5]; [Q2Qc 0.25; Q2Qc 0.75]; [Q2Qc 0.125; Q2Qc 0.875]]
                 [0; 1; 0]%Z t s)%Qc).
Proof.
  apply (get_forward_probs_recurrence
           [[Q2Qc 0.5; Q2Qc 0.5]; [Q2Qc 0.25; Q2Qc 0.75]; [Q2Qc 0.125; Q2Qc 0.875]]
           [0; 1; 0] [0; 0; 0] 3 3 2).
  - split; [reflexivity | repeat constructor].
  - lia.
  - reflexivity.
  - lia.
  - repeat constructor; lia.
  - reflexivity.
Defined.

(** C9: on such inputs [get_backward_probs] works in two phases.  The first
    fills a table: P(T-1, extended[S-1]) and P(T-1, extended[S-2]) in the last
    two cells of the last row, zeros before them, and for t from T-2 down to
    0 the cell (t, s) is the sum of [beta[t+1][s]], of [beta[t+1][s+1]] when
    s+1 < S and of [beta[t+1][s+2]] when the mask is set at s and s+2 < S,
    times P(t, extended[s]).  The second divides every cell (t, s) of that
    table once by P(t, extended[s]). *)
Theorem get_backward_probs_two_phases (logits : matrix)
    (extended_symbols skip_connect : list Z) (T S C : Z) :
  has_shape logits T C -> 1 <= T ->
  Forall (Forall (fun x => (0 < x)%Qc)) logits ->
  len extended_symbols = S -> 1 < S ->
  Forall (fun k => - C <= k < C) extended_symbols ->
  len skip_connect = S ->
  exists raw beta,
    CTC.backward_table Qc CTC.item_float logits extended_symbols skip_connect = Ok raw
    /\ CTC.get_backward_probs Qc CTC.item_float logits extended_symbols skip_connect
       = Ok beta
    /\ has_shape raw T S
    /\ has_shape beta T S
    /\ entry raw (T - 1) (S - 1) = P logits extended_symbols (T - 1) (S - 1)
    /\ entry raw (T - 1) (S - 2) = P logits extended_symbols (T - 1) (S - 2)
    /\ (forall s, 0 <= s < S - 2 -> entry raw (T - 1) s = 0%Qc)
    /\ (forall t s, 0 <= t < T - 1 -> 0 <= s < S ->
          entry raw t s
          = (backward_sum skip_connect S raw t s * P logits extended_symbols t s)%Qc)
    /\ (forall t s, 0 <= t < T -> 0 <= s < S ->
          (0 < P logits extended_symbols t s)%Qc
          /\ entry beta t s = (entry raw t s / P logits extended_symbols t s)%Qc).
Proof.
  intros Hlogits HT Hpos Hext HS Hsymbols Hskip.
  destruct (get_backward_probs_table Qc CTC.item_float logits extended_symbols
              skip_connect T S (P logits extended_symbols))
    as (raw & beta & Hraw & Hbeta & Hsr & Hsb & Hl1 & Hl2 & Hz & Hrec & Hdiv); try done.
  - intros t s Ht Hs. by apply (emission_float logits extended_symbols T S C).
  - by destruct Hlogits.
  - exists raw, beta. split_and!; try done.
    intros t s Ht Hs. split; [|by apply Hdiv].
    by apply (P_positive logits extended_symbols T S C).
Qed.

(** The same three time steps. *)
Lemma get_backward_probs_two_phases_witness :
  exists raw beta,
    CTC.backward_table Qc CTC.item_float
      [[Q2Qc 0.5; Q2Qc 0.5]; [Q2Qc 0.25; Q2Qc 0.75]; [Q2Qc 0.125; Q2Qc 0.875]]
      [0; 1; 0] [0; 0; 0] = Ok raw
    /\ CTC.get_backward_probs Qc CTC.item_float
         [[Q2Qc 0.5; Q2Qc 0.5]; [Q2Qc 0.25; Q2Qc 0.75]; [Q2Qc 0.125; Q2Qc 0.875]]
         [0; 1; 0] [0; 0; 0] = Ok beta
    /\ has_shape raw 3 3
    /\ has_shape beta 3 3
    /\ entry raw (3 - 1) (3 - 1)
       = P [[Q2Qc 0.5; Q2Qc 0.5]; [Q2Qc 0.25; Q2Qc 0.75]; [Q2Qc 0.125; Q2Qc 0.875]]
           [0; 1; 0] (3 - 1) (3 - 1)
    /\ entry raw (3 - 1) (3 - 2)
       = P [[Q2Qc 0.5; Q2Qc 0.5]; [Q2Qc 0.25; Q2Qc 0.75]; [Q2Qc 0.125; Q2Qc 0.875]]
           [0; 1; 0] (3 - 1) (3 - 2)
    /\ (forall s, 0 <= s < 3 - 2 -> entry raw (3 - 1) s = 0%Qc)
    /\ (forall t s, 0 <= t < 3 - 1 -> 0 <= s < 3 ->
          entry raw t s
          = (backward_sum [0; 0; 0]%Z 3 raw t s
             * P [[Q2Qc 0.5; Q2Qc 0.5]; [Q2Qc 0.25; Q2Qc 0.75]; [Q2Qc 0.125; Q2Qc 0.875]]
                 [0; 1; 0]%Z t s)%Qc)
    /\ (forall t s, 0 <= t < 3 -> 0 <= s < 3 ->
          (0 < P [[Q2Qc 0.5; Q2Qc 0.5]; [Q2Qc 0.25; Q2Qc 0.75]; [Q2Qc 0.125; Q2Qc 0.875]]
                 [0; 1; 0]%Z t s)%Qc
          /\ entry beta t s
             = (entry raw t s
                / P [[Q2Qc 0.5; Q2Qc 0.5]; [Q2Qc 0.25; Q2Qc 0.75]; [Q2Qc 0.125; Q2Qc 0.875]]
                    [0; 1; 0]%Z t s)%Qc).
Proof.
  apply (get_backward_probs_two_phases
           [[Q2Qc 0.5; Q2Qc 0.5]; [Q2Qc 0.25; Q2Qc 0.75]; [Q2Qc 0.125; Q2Qc 0.875]]
           [0; 1; 0] [0; 0; 0] 3 3 2).
  - split; [reflexivity | repeat constructor].
  - lia.
  - repeat constructor.
  - reflexivity.
  - lia.
  - repeat constructor; lia.
  - reflexivity.
Defined.

(** ** One symbol, one time step *)

(** C6 as stated fails at the emissions [0.3, 0.7]: the posterior of the
    three functions is [0, 1, 0], not [0.3, 0.7, 0]. *)
Lemma one_symbol_posterior_example :
  CTC.extend_target_with_blank CTC.init_default [1] = Ok ([0; 1; 0], [0; 0; 0])
  /\ posterior_of [[Q2Qc 0.3; Q2Qc 0.7]] [0; 1; 0] [0; 0; 0] = Ok [[0; 1; 0]]%Qc
  /\ [[0; 1; 0]]%Qc <> [[Q2Qc 0.3; Q2Qc 0.7; 0%Qc]].
Proof. split_and!; compute_done. Qed.

(** C6, as the code has it.  For the target [A] with A = 1 and BLANK = 0,
    one time step and non-zero emissions [p_blank, p_symbol]: the extended
    sequence is [0, 1, 0]; alpha is [p_blank, p_symbol, 0]; beta is
    [0, 1, 1]; the posterior is [0, 1, 0], all of it on the symbol; and the
    loss of the sample with this posterior,
    -(0 * log p_blank + 1 * log p_symbol + 0 * log p_blank), is
    -log p_symbol. *)
Theorem one_symbol_one_step (log : Qc -> Qc) (p_blank p_symbol : Qc) :
  p_blank <> 0%Qc -> p_symbol <> 0%Qc ->
  CTC.extend_target_with_blank CTC.init_default [1] = Ok ([0; 1; 0], [0; 0; 0])
  /\ CTC.get_forward_probs Qc CTC.item_float [[p_blank; p_symbol]] [0; 1; 0] [0; 0; 0]
     = Ok [[p_blank; p_symbol; 0%Qc]]
  /\ CTC.get_backward_probs Qc CTC.item_float [[p_blank; p_symbol]] [0; 1; 0] [0; 0; 0]
     = Ok [[0; 1; 1]]%Qc
  /\ posterior_of [[p_blank; p_symbol]] [0; 1; 0] [0; 0; 0] = Ok [[0; 1; 0]]%Qc
  /\ CTCLoss.expected_divergence log [[0; 1; 0]]%Qc [[[p_blank; p_symbol]]] [1]
       [0; 1; 0] 0
     = Ok (- log p_symbol)%Qc.
Proof.
  intros Hblank Hsymbol.
  assert (Hbeta :
    CTC.get_backward_probs Qc CTC.item_float [[p_blank; p_symbol]] [0; 1; 0] [0; 0; 0]
    = Ok [[0; 1; 1]]%Qc).
  { cbv -[Qcplus Qcmult Qcdiv Qcopp Q2Qc]. do 3 f_equal; [|f_equal; [|f_equal]];
      field; done. }
  split_and!.
  - reflexivity.
  - reflexivity.
  - exact Hbeta.
  - unfold posterior_of. rewrite Hbeta.
    cbv -[Qcplus Qcmult Qcdiv Qcopp Q2Qc]. do 3 f_equal; [|f_equal; [|f_equal]];
      field; intros Hzero; apply Hsymbol; rewrite <- Hzero; ring.
  - cbv -[Qcplus Qcmult Qcdiv Qcopp Q2Qc]. f_equal. ring.
Qed.

(** The emissions [0.3, 0.7], with [x - 1] standing for the logarithm. *)
Lemma one_symbol_one_step_witness :
  CTC.extend_target_with_blank CTC.init_default [1] = Ok ([0; 1; 0], [0; 0; 0])
  /\ CTC.get_forward_probs Qc CTC.item_float [[Q2Qc 0.3; Q2Qc 0.7]] [0; 1; 0] [0; 0; 0]
     = Ok [[Q2Qc 0.3; Q2Qc 0.7; 0%Qc]]
  /\ CTC.get_backward_probs Qc CTC.item_float [[Q2Qc 0.3; Q2Qc 0.7]] [0; 1; 0] [0; 0; 0]
     = Ok [[0; 1; 1]]%Qc
  /\ posterior_of [[Q2Qc 0.3; Q2Qc 0.7]] [0; 1; 0] [0; 0; 0] = Ok [[0; 1; 0]]%Qc
  /\ CTCLoss.expected_divergence (fun x => (x - 1)%Qc) [[0; 1; 0]]%Qc
       [[[Q2Qc 0.3; Q2Qc 0.7]]] [1] [0; 1; 0] 0
     = Ok (- (Q2Qc 0.7 - 1))%Qc.
Proof.
  apply (one_symbol_one_step (fun x => (x - 1)%Qc) (Q2Qc 0.3) (Q2Qc 0.7));
    compute_done.
Defined.

(** ** What the truncation statements keep *)
Section Truncation.

Lemma broadcast_to_len {A : Type} (n : Z) (src l : list A) :
  0 <= n -> broadcast_to n src = Ok l -> len l = n.
Proof.
  intros Hn. unfold broadcast_to. repeat case_bool_decide; try done; intros [= <-]; [done|].
  destruct src as [|x [|y src]]; unfold len in *; simpl in *; try lia.
  rewrite length_replicate. lia.
Qed.

Lemma index_store {A : Type} (l l' : list A) (k : Z) (v : A) :
  store l k v = Ok l' -> index l' k = Ok v.
Proof.
  unfold store, index. destruct (position (len l) k) as [i|] eqn:Hi; [|done].
  intros [= <-]. unfold len in *. rewrite length_insert, Hi.
  apply position_lt in Hi. by rewrite list_lookup_insert_eq by lia.
Qed.

(** Whenever the statement for the target goes through, the row it leaves
    for [extend_target_with_blank] has the padded length of the row it
    found, whatever the declared target length. *)
Lemma truncate_target_keeps_length (target target' : list (list Z))
    (target_lengths : list Z) (batch_itr : Z) (row row' : list Z) :
  CTCLoss.truncate_target target target_lengths batch_itr = Ok target' ->
  index target batch_itr = Ok row ->
  index target' batch_itr = Ok row' ->
  len row' = len row.
Proof.
  unfold CTCLoss.truncate_target. intros Hrun Hrow Hrow'.
  destruct (index target_lengths batch_itr) as [length|]; cbn [bind] in Hrun; [|done].
  rewrite Hrow in Hrun. cbn [bind] in Hrun.
  destruct (broadcast_to _ _) as [new|] eqn:Hnew; cbn [bind] in Hrun; [|done].
  apply index_store in Hrun. rewrite Hrun in Hrow'. injection Hrow' as <-.
  apply broadcast_to_len in Hnew; [done | unfold len; lia].
Qed.

(** For a declared length that is not negative, the statement goes through
    only when that length covers the whole row or is 1; a shorter slice of
    two labels or more, or an empty one, does not fit the row. *)
Lemma truncate_target_returns (target target' : list (list Z))
    (target_lengths : list Z) (batch_itr length : Z) (row : list Z) :
  CTCLoss.truncate_target target target_lengths batch_itr = Ok target' ->
  index target_lengths batch_itr = Ok length ->
  index target batch_itr = Ok row ->
  0 <= length ->
  len row <= length \/ length = 1.
Proof.
  unfold CTCLoss.truncate_target. intros Hrun Hlength Hrow Hlen.
  rewrite Hlength in Hrun. cbn [bind] in Hrun.
  rewrite Hrow in Hrun. cbn [bind] in Hrun.
  destruct (broadcast_to _ _) as [new|] eqn:Hnew; cbn [bind] in Hrun; [|done].
  unfold broadcast_to, slice_to in Hnew.
  rewrite !(bool_decide_eq_false_2 (length < 0)) in Hnew by lia.
  unfold len in *. rewrite !length_take in Hnew.
  repeat case_bool_decide; try done; lia.
Qed.

End Truncation.

(** ** [CTCLoss.forward] and [CTCLoss.backward] at concrete batches *)

(** C4 at the batch target = [[1, 2]], target_lengths = [1].  The statement
    meant to truncate the target assigns the slice [1] to the whole row,
    which NumPy broadcasts: the row stays two labels long, [1, 1], and that
    row is what is extended, to five symbols, where the truncated target
    [1] extends to three; a slice of two labels out of three is an error.
    The statement for the logits, on two time steps and an input length of
    1, copies step 0 over step 1 and keeps both. *)
Theorem truncation_keeps_padded_length :
  CTCLoss.truncate_target [[1; 2]] [1] 0 = Ok [[1; 1]]
  /\ CTC.extend_target_with_blank CTC.init_default [1; 1]
     = Ok ([0; 1; 0; 1; 0], [0; 0; 0; 0; 0])
  /\ slice_to [1; 2] 1 = [1]
  /\ CTC.extend_target_with_blank CTC.init_default [1] = Ok ([0; 1; 0], [0; 0; 0])
  /\ CTCLoss.truncate_target [[1; 2; 3]] [2] 0 = Raise ValueError
  /\ CTCLoss.truncate_logits [[[Q2Qc 0.5; Q2Qc 0.5]]; [[Q2Qc 0.25; Q2Qc 0.75]]] [1] 0
     = Ok [[[Q2Qc 0.5; Q2Qc 0.5]]; [[Q2Qc 0.5; Q2Qc 0.5]]].
Proof. split_and!; compute_done. Qed.

(** End to end, on five time steps of a one-class batch with the target
    [[0, 0]] of declared length 1, [forward] returns and has recorded an
    extended sequence of 2*2+1 symbols. *)
Lemma forward_records_padded_extension (log : Qc -> Qc) :
  recorded_symbols log
    [[[Q2Qc 0.5]]; [[Q2Qc 0.5]]; [[Q2Qc 0.5]]; [[Q2Qc 0.5]]; [[Q2Qc 0.5]]]
    [[0; 0]] [5] [1]
  = Ok [[0; 0; 0; 0; 0]].
Proof. compute_done. Qed.

(** C7 at the batch of the specification: one sample, target [A] with
    A = 1, one time step, emissions [0.3, 0.7].  [forward] hands its whole
    three-dimensional [logits] to [get_forward_probs], whose first statement
    then stores the row [logits[0][0]] of two floats into the float cell
    [alpha[0][0]]: the call raises and no loss is returned. *)
Theorem forward_raises_on_specification_example (log : Qc -> Qc) :
  CTCLoss.forward log (CTCLoss.init 0) [[[Q2Qc 0.3; Q2Qc 0.7]]] [[1]] [1] [1]
  = Raise ValueError.
Proof. reflexivity. Qed.

(** C3 at a batch on which [backward] returns: three time steps, one sample,
    one class, target [[0]], input length 1, target length 1.  The loop of
    [backward] runs over all T = 3 time steps, not over the input length,
    and the gradient is -2 at (1, 0, 0) and (2, 0, 0), beyond the input
    length. *)
Theorem backward_writes_beyond_input_length (log : Qc -> Qc) :
  gradient log [[[Q2Qc 0.5]]; [[Q2Qc 0.25]]; [[Q2Qc 0.125]]] [[0]] [1] [1]
  = Ok [[[Q2Qc (-2)]]; [[Q2Qc (-2)]]; [[Q2Qc (-2)]]]
  /\ get3 [[[Q2Qc (-2)]]; [[Q2Qc (-2)]]; [[Q2Qc (-2)]]] 1 0 0 = Ok (Q2Qc (-2))
  /\ Q2Qc (-2) <> 0%Qc.
Proof. split_and!; compute_done. Qed.

(** ** [CTCLoss] on batches of two classes or more *)
Section WholeTensor.

Lemma raises_bind {A B : Type} (m : result A) (k : A -> result B) :
  (forall a, m = Ok a -> raises (k a)) -> raises (bind m k).
Proof.
  intros Hk. destruct m as [a|e]; cbn [bind]; [by apply Hk | by exists e].
Qed.

Lemma traverse_Forall2 {A B : Type} (f : A -> result B) (l : list A) (l' : list B) :
  CTCLoss.traverse f l = Ok l' -> Forall2 (fun x y => f x = Ok y) l l'.
Proof.
  revert l'. induction l as [|x l IH]; intros l' Hrun; simpl in Hrun.
  - injection Hrun as <-. constructor.
  - destruct (f x) as [y|] eqn:Hy; cbn [bind] in Hrun; [|done].
    destruct (CTCLoss.traverse f l) as [ys|]; cbn [bind] in Hrun; [|done].
    injection Hrun as <-. constructor; auto.
Qed.

Lemma store_Forall {A : Type} (Q : A -> Prop) (l l' : list A) (k : Z) (v : A) :
  store l k v = Ok l' -> Forall Q l -> Q v -> Forall Q l'.
Proof.
  unfold store. destruct (position (len l) k); [|done].
  intros [= <-] Hl Hv. by apply Forall_insert.
Qed.

Lemma broadcast_to_Forall {A : Type} (Q : A -> Prop) (n : Z) (src l : list A) :
  broadcast_to n src = Ok l -> Forall Q src -> Forall Q l.
Proof.
  unfold broadcast_to. repeat case_bool_decide; try done; intros [= <-] Hsrc; [done|].
  destruct src as [|x [|y src]]; try done. simpl.
  apply Forall_replicate. by apply Forall_cons_1 in Hsrc as [Hx _].
Qed.

Variable Q : list Qc -> Prop.

(** The statement that truncates the logits moves rows of the array
    around; it makes no new row. *)
Lemma truncate_logits_rows (logits logits' : tensor) (input_lengths : list Z)
    (batch_itr : Z) :
  CTCLoss.truncate_logits logits input_lengths batch_itr = Ok logits' ->
  Forall (Forall Q) logits -> Forall (Forall Q) logits'.
Proof.
  unfold CTCLoss.truncate_logits. intros Hrun Hlogits.
  destruct (index input_lengths batch_itr) as [length|]; cbn [bind] in Hrun; [|done].
  destruct (CTCLoss.traverse _ logits) as [rows|] eqn:Hrows; cbn [bind] in Hrun; [|done].
  destruct (broadcast_to _ _) as [rows'|] eqn:Hrows'; cbn [bind] in Hrun; [|done].
  apply traverse_Forall2 in Hrows, Hrun.
  assert (Hq : Forall Q rows).
  { clear -Hrows Hlogits. induction Hrows as [|plane row logits rows Hrow _ IH];
      [constructor|].
    apply Forall_cons_1 in Hlogits as [Hplane Hlogits]. constructor; [|auto].
    apply index_elem in Hrow. rewrite Forall_forall in Hplane.
    by apply Hplane, list_elem_of_In. }
  assert (Hq' : Forall Q rows').
  { eapply broadcast_to_Forall; [exact Hrows'|]. unfold slice_to. by apply Forall_take. }
  clear -Hrun Hlogits Hq'. revert rows' logits' Hrun Hq'.
  induction Hlogits as [|plane logits Hplane _ IH]; intros rows' logits' Hrun Hq'.
  - simpl in Hrun. inversion Hrun. constructor.
  - destruct rows' as [|row rows']; simpl in Hrun.
    + inversion Hrun. constructor.
    + apply Forall_cons_1 in Hq' as [Hrow Hq'].
      inversion Hrun as [|? plane' ? logits'' Hstore Hrest]; subst.
      constructor; [by eapply store_Forall | by eapply IH].
Qed.

End WholeTensor.

(** On the three-dimensional array the entry [logits[0][extended_symbols[0]]]
    is a row; when every row has two floats or more it does not fit the cell
    [alpha[0][0]]. *)
Lemma get_forward_probs_tensor_raises (logits : tensor)
    (extended_symbols skip_connect : list Z) :
  Forall (Forall (fun row : list Qc => 2 <= len row)) logits ->
  raises (CTC.get_forward_probs (list Qc) CTC.item_row logits extended_symbols
            skip_connect).
Proof.
  intros Hrows. unfold CTC.get_forward_probs. cbv zeta.
  apply raises_bind. intros e He. apply raises_bind. intros x Hx.
  unfold CTC.emission in He.
  destruct (index logits 0) as [plane|] eqn:Hplane; cbn [bind] in He; [|done].
  destruct (index extended_symbols 0) as [k|]; cbn [bind] in He; [|done].
  apply index_elem, list_elem_of_In in Hplane. apply index_elem, list_elem_of_In in He.
  rewrite Forall_forall in Hrows. specialize (Hrows plane Hplane).
  rewrite Forall_forall in Hrows. specialize (Hrows e He).
  destruct e as [|y [|z e]]; unfold len in Hrows; simpl in *; (lia || done).
Qed.

(** The statements shared by [forward] and [backward] never get past the
    forward pass on such a batch. *)
Lemma sample_posterior_raises (this : CTCLoss.self) (logits : tensor)
    (target : list (list Z)) (input_lengths target_lengths : list Z) (batch_itr : Z) :
  Forall (Forall (fun row : list Qc => 2 <= len row)) logits ->
  raises (CTCLoss.sample_posterior this logits target input_lengths target_lengths
            batch_itr).
Proof.
  intros Hrows. unfold CTCLoss.sample_posterior.
  apply raises_bind. intros target' _.
  apply raises_bind. intros logits' Hlogits'.
  apply raises_bind. intros row _.
  apply raises_bind. intros [ext_symbols skip_connect] _.
  apply raises_bind. intros alpha Halpha.
  destruct (get_forward_probs_tensor_raises logits' ext_symbols skip_connect) as [e He].
  - by eapply truncate_logits_rows.
  - congruence.
Qed.

(** Whatever the batch of at least one sample, when the vocabulary has two
    classes or more [forward] raises. *)
Lemma forward_raises_on_two_classes (log : Qc -> Qc) (this : CTCLoss.self)
    (logits : tensor) (target : list (list Z)) (input_lengths target_lengths : list Z) :
  1 <= len target ->
  Forall (Forall (fun row : list Qc => 2 <= len row)) logits ->
  raises (CTCLoss.forward log this logits target input_lengths target_lengths).
Proof.
  intros HB Hrows. unfold CTCLoss.forward. cbv zeta.
  apply raises_bind. intros st Hst. exfalso.
  unfold range in Hst. rewrite seqZ_cons in Hst by lia. cbn [for_each] in Hst.
  destruct (sample_posterior_raises this logits target input_lengths target_lengths 0
              Hrows) as [e He].
  rewrite He in Hst. done.
Qed.

(** And so does [backward], on an object that holds such a batch. *)
Lemma backward_raises_on_two_classes (this : CTCLoss.self) (kept : CTCLoss.batch) :
  CTCLoss.saved this = Some kept ->
  1 <= ncols (CTCLoss.logits kept) ->
  Forall (Forall (fun row : list Qc => 2 <= len row)) (CTCLoss.logits kept) ->
  raises (CTCLoss.backward this).
Proof.
  intros Hkept HB Hrows. unfold CTCLoss.backward. rewrite Hkept.
  unfold shape3. cbv zeta beta iota.
  apply raises_bind. intros st Hst. exfalso.
  unfold range in Hst. rewrite seqZ_cons in Hst by lia. cbn [for_each] in Hst.
  destruct (sample_posterior_raises this (CTCLoss.logits kept) (CTCLoss.target kept)
              (CTCLoss.input_lengths kept) (CTCLoss.target_lengths kept) 0 Hrows)
    as [e He].
  rewrite He in Hst. done.
Qed.

(** * Further properties of the code *)

(** ** The extended sequence and its mask, label by label *)
Section Interleaving.

Variable this : CTC.self.

Lemma interleaved_even (target : list Z) (i : nat) :
  (i <= length target)%nat ->
  (CTC.BLANK this :: flat_map (fun symbol => [symbol; CTC.BLANK this]) target)
    !! (2 * i)%nat = Some (CTC.BLANK this).
Proof.
  revert i. induction target as [|symbol target IH]; intros [|i] Hi; simpl in *;
    try done; try lia.
  replace (i + S (i + 0))%nat with (S (2 * i)) by lia. simpl. apply IH. lia.
Qed.

Lemma interleaved_odd (target : list Z) (i : nat) :
  (CTC.BLANK this :: flat_map (fun symbol => [symbol; CTC.BLANK this]) target)
    !! (2 * i + 1)%nat = target !! i.
Proof.
  revert i. induction target as [|symbol target IH]; intros [|i]; simpl in *; try done.
  replace (i + S (i + 0) + 1)%nat with (S (2 * i + 1)) by lia. simpl. apply IH.
Qed.

(** What [extend_target_with_blank] returns as extended sequence. *)
Lemma extend_target_with_blank_symbols (target ext skip_connect : list Z) :
  CTC.extend_target_with_blank this target = Ok (ext, skip_connect) ->
  ext = CTC.BLANK this :: flat_map (fun symbol => [symbol; CTC.BLANK this]) target.
Proof.
  unfold CTC.extend_target_with_blank.
  rewrite extended_symbols_foldl. cbn [app].
  destruct (for_each _ _ _); cbn [bind]; [|done]. by intros [= <- _].
Qed.

Lemma extended_even (target ext skip_connect : list Z) (i : Z) :
  CTC.extend_target_with_blank this target = Ok (ext, skip_connect) ->
  0 <= i <= len target ->
  index ext (2 * i) = Ok (CTC.BLANK this).
Proof.
  intros Hrun Hi. rewrite (extend_target_with_blank_symbols _ _ _ Hrun).
  rewrite index_nonneg by lia.
  replace (Z.to_nat (2 * i)) with (2 * Z.to_nat i)%nat by lia.
  rewrite interleaved_even; [done | unfold len in Hi; lia].
Qed.

Lemma extended_odd (target ext skip_connect : list Z) (i : Z) :
  CTC.extend_target_with_blank this target = Ok (ext, skip_connect) ->
  0 <= i ->
  index ext (2 * i + 1) = index target i.
Proof.
  intros Hrun Hi. rewrite (extend_target_with_blank_symbols _ _ _ Hrun).
  rewrite !index_nonneg by lia.
  replace (Z.to_nat (2 * i + 1)) with (2 * Z.to_nat i + 1)%nat by lia.
  by rewrite interleaved_odd.
Qed.

Lemma extended_len (target ext skip_connect : list Z) :
  CTC.extend_target_with_blank this target = Ok (ext, skip_connect) ->
  len ext = 2 * len target + 1.
Proof.
  intros Hrun. rewrite (extend_target_with_blank_symbols _ _ _ Hrun).
  unfold len. simpl. rewrite length_interleaved. lia.
Qed.

(** The extended sequence holds the blank at every even position, the first
    and the last included, and the label number [i] at position [2i+1]. *)
Theorem extend_target_with_blank_interleaves (target ext skip_connect : list Z) :
  CTC.extend_target_with_blank this target = Ok (ext, skip_connect) ->
  (forall i, 0 <= i <= len target -> index ext (2 * i) = Ok (CTC.BLANK this))
  /\ (forall i, 0 <= i < len target -> index ext (2 * i + 1) = index target i)
  /\ index ext 0 = Ok (CTC.BLANK this)
  /\ index ext (-1) = Ok (CTC.BLANK this).
Proof.
  intros Hrun. split_and!.
  - intros i Hi. by eapply extended_even.
  - intros i Hi. eapply extended_odd; [done | lia].
  - apply (extended_even target ext skip_connect 0 Hrun). unfold len. lia.
  - pose proof (extended_len _ _ _ Hrun) as Hlen.
    rewrite index_wrap by (unfold len in *; lia).
    replace (-1 + len ext) with (2 * len target) by lia.
    apply (extended_even target ext skip_connect (len target) Hrun). unfold len. lia.
Qed.

(** In terms of the labels, the mask is clear at every blank and set at the
    label number [i] exactly when a next label exists and differs from it. *)
Theorem extend_target_with_blank_mask_by_label (target ext skip_connect : list Z) :
  CTC.extend_target_with_blank this target = Ok (ext, skip_connect) ->
  (forall i, 0 <= i <= len target -> index skip_connect (2 * i) = Ok 0)
  /\ (forall i, 0 <= i < len target ->
        index skip_connect (2 * i + 1)
        = Ok (if bool_decide (i + 1 < len target
                              /\ index target i <> index target (i + 1))
              then 1 else 0)).
Proof.
  intros Hrun. pose proof (extended_len _ _ _ Hrun) as Hlen. split.
  - intros i Hi.
    rewrite (extend_target_with_blank_looks_ahead this target ext skip_connect)
      by (done || lia).
    unfold look_ahead. rewrite bool_decide_eq_false_2; [done|].
    intros [Hlt Hne]. apply Hne.
    rewrite (extended_even target ext skip_connect i Hrun) by lia.
    replace (2 * i + 2) with (2 * (i + 1)) by lia.
    by rewrite (extended_even target ext skip_connect (i + 1) Hrun) by lia.
  - intros i Hi.
    rewrite (extend_target_with_blank_looks_ahead this target ext skip_connect)
      by (done || lia).
    unfold look_ahead. f_equal.
    rewrite (extended_odd target ext skip_connect i Hrun) by lia.
    replace (2 * i + 1 + 2) with (2 * (i + 1) + 1) by lia.
    rewrite (extended_odd target ext skip_connect (i + 1) Hrun) by lia.
    rewrite Hlen.
    case_bool_decide as Hahead; case_bool_decide as Hnext; try done; exfalso.
    + apply Hnext. destruct Hahead as [Hlt Hne]. split; [lia | done].
    + apply Hahead. destruct Hnext as [Hlt Hne]. split; [lia | done].
Qed.

End Interleaving.

(** ** Loops that return *)

(** Splits a sequence of statements that returned into its statements. *)
Ltac bind_inv H :=
  repeat match type of H with
         | bind ?m _ = Ok _ =>
             let x := fresh "x" in
             let Hx := fresh "Hx" in
             destruct m as [x|] eqn:Hx; cbn [bind] in H; [|discriminate H]
         end.

Section Returning.

Lemma for_each_invariant {I St : Type} (Inv : St -> Prop) (xs : list I)
    (body : I -> St -> result St) :
  (forall x st st', x ∈ xs -> body x st = Ok st' -> Inv st -> Inv st') ->
  forall st st', for_each xs body st = Ok st' -> Inv st -> Inv st'.
Proof.
  induction xs as [|x xs IH]; intros Hbody st st' Hrun Hst; simpl in Hrun.
  - by injection Hrun as <-.
  - bind_inv Hrun. eapply IH; [|exact Hrun|].
    + intros y st0 st1 Hy. apply Hbody, elem_of_cons. auto.
    + eapply Hbody; [apply elem_of_cons; auto | done | done].
Qed.

Lemma for_each_returned {I St : Type} (xs : list I) (body : I -> St -> result St)
    (st st' : St) (x : I) :
  for_each xs body st = Ok st' -> x ∈ xs -> exists st0 st1, body x st0 = Ok st1.
Proof.
  revert st. induction xs as [|y xs IH]; intros st Hrun Hx; simpl in Hrun.
  - by apply elem_of_nil in Hx.
  - bind_inv Hrun. apply elem_of_cons in Hx as [->|Hx]; [eauto | by eapply IH].
Qed.

Lemma index_in_range {A : Type} (l : list A) (k : Z) (x : A) :
  index l k = Ok x -> - len l <= k < len l.
Proof.
  unfold index, position. repeat case_bool_decide; try done; lia.
Qed.

Lemma store_len {A : Type} (l l' : list A) (k : Z) (v : A) :
  store l k v = Ok l' -> len l' = len l.
Proof.
  unfold store. destruct (position (len l) k); [|done].
  intros [= <-]. unfold len. by rewrite length_insert.
Qed.

Variables T S : Z.

(** A cell assignment that goes through keeps the shape of the table. *)
Lemma set2_shape (a a' : matrix) (t s : Z) (v : Qc) :
  set2 a t s v = Ok a' -> has_shape a T S -> has_shape a' T S.
Proof.
  unfold set2. intros Hrun [Hlen Hrows]. bind_inv Hrun.
  pose proof (store_len _ _ _ _ Hx0) as Hrow.
  pose proof (store_len _ _ _ _ Hrun) as Hlen'.
  apply index_elem, list_elem_of_In in Hx.
  pose proof (proj1 (Forall_forall _ _) Hrows _ Hx) as Hxs. simpl in Hxs.
  split; [congruence|].
  eapply store_Forall; [exact Hrun | done | congruence].
Qed.

Section OneCell.

Variable E : Type.
Variable item : E -> result Qc.
Variable logits : list (list E).
Variables extended_symbols skip_connect : list Z.

(** So does a step of either recurrence, and a step of the division. *)
Lemma cell_step_shape (a a' : matrix) (t s t' s1 s2 : Z) (g1 g2 : bool) :
  (let* prev := get2 a t' s in
   let* a := set2 a t s prev in
   let* a := if g1 then
               let* cur := get2 a t s in
               let* prev := get2 a t' s1 in
               set2 a t s (cur + prev)%Qc
             else Ok a in
   let* skip := index skip_connect s in
   let* a := if truthy skip && g2 then
               let* cur := get2 a t s in
               let* prev := get2 a t' s2 in
               set2 a t s (cur + prev)%Qc
             else Ok a in
   let* cur := get2 a t s in
   let* e := CTC.emission E logits extended_symbols t s in
   let* p := item e in
   set2 a t s (cur * p)%Qc) = Ok a' ->
  has_shape a T S -> has_shape a' T S.
Proof.
  intros Hrun Ha. bind_inv Hrun.
  apply set2_shape in Hx0; [|done].
  assert (Hx1' : has_shape x1 T S).
  { destruct g1; [|by injection Hx1 as <-]. bind_inv Hx1. by eapply set2_shape. }
  assert (Hx3' : has_shape x3 T S).
  { destruct (truthy x2 && g2); [|by injection Hx3 as <-].
    bind_inv Hx3. by eapply set2_shape. }
  by eapply set2_shape.
Qed.

Lemma divide_step_shape (a a' : matrix) (t s : Z) :
  (let* cur := get2 a t s in
   let* e := CTC.emission E logits extended_symbols t s in
   let* p := item e in
   set2 a t s (cur / p)%Qc) = Ok a' ->
  has_shape a T S -> has_shape a' T S.
Proof. intros Hrun Ha. bind_inv Hrun. by eapply set2_shape. Qed.

End OneCell.

End Returning.

(** Whenever [get_forward_probs] returns, on a matrix or on the whole
    three-dimensional array, its table has one row per entry of [logits]
    along the first axis and one column per extended symbol. *)
Theorem get_forward_probs_shape (E : Type) (item : E -> result Qc)
    (logits : list (list E)) (extended_symbols skip_connect : list Z) (alpha : matrix) :
  CTC.get_forward_probs E item logits extended_symbols skip_connect = Ok alpha ->
  has_shape alpha (len logits) (len extended_symbols).
Proof.
  unfold CTC.get_forward_probs. cbv zeta. intros Hrun. bind_inv Hrun.
  assert (Hzeros : has_shape (zeros (len logits) (len extended_symbols))
                     (len logits) (len extended_symbols))
    by (apply zeros_shape; unfold len; lia).
  apply (set2_shape _ _ _ _ _ _ _ Hx1) in Hzeros.
  apply (set2_shape _ _ _ _ _ _ _ Hx4) in Hzeros.
  eapply (for_each_invariant (fun a => has_shape a (len logits) (len extended_symbols))); [|exact Hrun|exact Hzeros]. intros t a a' _.
  apply (for_each_invariant (fun a => has_shape a (len logits) (len extended_symbols))). intros s b b' _. apply cell_step_shape.
Qed.

(** Whenever [get_backward_probs] returns, its table has that shape too. *)
Theorem get_backward_probs_shape (E : Type) (item : E -> result Qc)
    (logits : list (list E)) (extended_symbols skip_connect : list Z) (beta : matrix) :
  CTC.get_backward_probs E item logits extended_symbols skip_connect = Ok beta ->
  has_shape beta (len logits) (len extended_symbols).
Proof.
  unfold CTC.get_backward_probs. cbv zeta. intros Hrun. bind_inv Hrun.
  assert (Hraw : has_shape x (len logits) (len extended_symbols)).
  { unfold CTC.backward_table in Hx. cbv zeta in Hx. bind_inv Hx.
    assert (Hzeros : has_shape (zeros (len logits) (len extended_symbols))
                       (len logits) (len extended_symbols))
      by (apply zeros_shape; unfold len; lia).
    apply (set2_shape _ _ _ _ _ _ _ Hx2) in Hzeros.
    apply (set2_shape _ _ _ _ _ _ _ Hx5) in Hzeros.
    eapply (for_each_invariant (fun a => has_shape a (len logits) (len extended_symbols))); [|exact Hx|exact Hzeros]. intros t a a' _.
    apply (for_each_invariant (fun a => has_shape a (len logits) (len extended_symbols))). intros s b b' _. apply cell_step_shape. }
  eapply (for_each_invariant (fun a => has_shape a (len logits) (len extended_symbols))); [|exact Hrun|exact Hraw]. intros t a a' _.
  apply (for_each_invariant (fun a => has_shape a (len logits) (len extended_symbols))). intros s b b' _. apply divide_step_shape.
Qed.

(** ** The exceptions of the methods of [CTC] *)
Section Exceptions.

Lemma raises_only_ok {A : Type} (e0 : exn) (a : A) : raises_only e0 (Ok a).
Proof. intros e He. discriminate He. Qed.

Lemma raises_only_bind {A B : Type} (e0 : exn) (m : result A) (k : A -> result B) :
  raises_only e0 m -> (forall a, raises_only e0 (k a)) -> raises_only e0 (bind m k).
Proof.
  intros Hm Hk e He. destruct m as [a|e']; cbn [bind] in He.
  - by eapply Hk.
  - apply Hm. congruence.
Qed.

Lemma raises_only_for_each {I St : Type} (e0 : exn) (xs : list I)
    (body : I -> St -> result St) (st : St) :
  (forall x st, raises_only e0 (body x st)) -> raises_only e0 (for_each xs body st).
Proof.
  intros Hbody. revert st. induction xs as [|x xs IH]; intros st; simpl.
  - apply raises_only_ok.
  - apply raises_only_bind; [apply Hbody | apply IH].
Qed.

Lemma raises_only_index {A : Type} (l : list A) (k : Z) :
  raises_only IndexError (index l k).
Proof.
  intros e. unfold index. destruct (position _ _); [destruct (l !! _)|]; congruence.
Qed.

Lemma raises_only_store {A : Type} (l : list A) (k : Z) (v : A) :
  raises_only IndexError (store l k v).
Proof. intros e. unfold store. destruct (position _ _); congruence. Qed.

Lemma raises_only_get2 (a : matrix) (t s : Z) : raises_only IndexError (get2 a t s).
Proof.
  unfold get2. apply raises_only_bind; [apply raises_only_index|].
  intros row. apply raises_only_index.
Qed.

Lemma raises_only_set2 (a : matrix) (t s : Z) (v : Qc) :
  raises_only IndexError (set2 a t s v).
Proof.
  unfold set2. apply raises_only_bind; [apply raises_only_index|]. intros row.
  apply raises_only_bind; [apply raises_only_store|]. intros row'.
  apply raises_only_store.
Qed.

Lemma raises_only_emission {E : Type} (logits : list (list E)) (ext : list Z) (t s : Z) :
  raises_only IndexError (CTC.emission E logits ext t s).
Proof.
  unfold CTC.emission. apply raises_only_bind; [apply raises_only_index|]. intros row.
  apply raises_only_bind; [apply raises_only_index|]. intros k.
  apply raises_only_index.
Qed.

Lemma raises_only_item_float (x : Qc) : raises_only IndexError (CTC.item_float x).
Proof. apply raises_only_ok. Qed.

Lemma raises_only_multiply (a b : matrix) : raises_only ValueError (multiply a b).
Proof.
  intros e. unfold multiply.
  destruct (broadcast_dim (len a) (len b)), (broadcast_dim (ncols a) (ncols b));
    congruence.
Qed.

Lemma raises_only_idivide (a : matrix) (v : list Qc) :
  raises_only ValueError (idivide a v).
Proof.
  intros e. unfold idivide.
  destruct (broadcast_dim _ _); [destruct (bool_decide _)|]; congruence.
Qed.

Lemma raise_by_name {A : Type} (e0 : exn) (m : result A) :
  raises m -> raises_only e0 m -> m = Raise e0.
Proof. intros [e He] Honly. by rewrite He, (Honly e He). Qed.

(** An index off an axis makes the read of P(t, extended[s]) raise. *)
Lemma emission_raises {E : Type} (logits : list (list E)) (ext : list Z) (t s : Z) :
  ~ (- len logits <= t < len logits) \/ ~ (- len ext <= s < len ext) ->
  raises (CTC.emission E logits ext t s).
Proof.
  intros Hout. unfold CTC.emission.
  destruct (index logits t) as [row|e] eqn:Hrow; cbn [bind]; [|by exists e].
  destruct (index ext s) as [k|e] eqn:Hk; cbn [bind]; [|by exists e].
  apply index_in_range in Hrow, Hk. tauto.
Qed.

End Exceptions.

Ltac raises_only_step :=
  first [ apply raises_only_ok
        | apply raises_only_get2
        | apply raises_only_set2
        | apply raises_only_index
        | apply raises_only_emission
        | apply raises_only_item_float
        | apply raises_only_for_each; intros
        | apply raises_only_bind; [|intros]
        | match goal with |- raises_only _ (if ?b then _ else _) => destruct b end ].

(** On an emission matrix the two passes raise nothing but [IndexError],
    and [get_posterior_probs] nothing but [ValueError]. *)
Theorem CTC_exceptions (logits alpha beta : matrix)
    (extended_symbols skip_connect : list Z) :
  raises_only IndexError
    (CTC.get_forward_probs Qc CTC.item_float logits extended_symbols skip_connect)
  /\ raises_only IndexError
       (CTC.get_backward_probs Qc CTC.item_float logits extended_symbols skip_connect)
  /\ raises_only ValueError (CTC.get_posterior_probs alpha beta).
Proof.
  split_and!.
  - unfold CTC.get_forward_probs. cbv zeta. repeat raises_only_step.
  - unfold CTC.get_backward_probs, CTC.backward_table. cbv zeta.
    repeat raises_only_step.
  - unfold CTC.get_posterior_probs. cbv zeta.
    apply raises_only_bind; [apply raises_only_multiply|]. intros gamma.
    apply raises_only_bind; [apply raises_only_idivide|]. intros gamma'.
    apply raises_only_ok.
Qed.

(** Without a time step, or with an extended sequence of fewer than two
    symbols (the extension of the empty target has one), neither pass
    returns: both raise [IndexError]. *)
Theorem passes_need_two_symbols (logits : matrix)
    (extended_symbols skip_connect : list Z) :
  len logits = 0 \/ len extended_symbols < 2 ->
  CTC.get_forward_probs Qc CTC.item_float logits extended_symbols skip_connect
  = Raise IndexError
  /\ CTC.get_backward_probs Qc CTC.item_float logits extended_symbols skip_connect
     = Raise IndexError.
Proof.
  intros Hshort. split.
  - apply raise_by_name;
      [|unfold CTC.get_forward_probs; cbv zeta; repeat raises_only_step].
    unfold CTC.get_forward_probs. cbv zeta. destruct Hshort as [Hlogits|Hext].
    + apply raises_bind. intros e He.
      destruct (emission_raises logits extended_symbols 0 0) as [e' He'];
        [left; lia | congruence].
    + apply raises_bind. intros e0 _. apply raises_bind. intros p0 _.
      apply raises_bind. intros a0 _. apply raises_bind. intros e1 He.
      destruct (emission_raises logits extended_symbols 0 1) as [e' He'];
        [right; lia | congruence].
  - apply raise_by_name;
      [|unfold CTC.get_backward_probs, CTC.backward_table; cbv zeta;
        repeat raises_only_step].
    unfold CTC.get_backward_probs, CTC.backward_table. cbv zeta.
    apply raises_bind. intros raw Hraw. exfalso. bind_inv Hraw.
    destruct Hshort as [Hlogits|Hext].
    + destruct (emission_raises logits extended_symbols (len logits - 1) (-1))
        as [e' He']; [left; lia | congruence].
    + destruct (emission_raises logits extended_symbols (len logits - 1) (-2))
        as [e' He']; [right; lia | congruence].
Qed.

(** ** What a pass that returns has checked *)
Section Checked.

Variable E : Type.
Variable item : E -> result Qc.
Variable logits : list (list E).
Variables extended_symbols skip_connect : list Z.
Variables T C : Z.

Hypothesis Hlogits : has_shape logits T C.

(** A read of P(t, extended[s]) that goes through has found the symbol at
    [s] to be an index of the row [logits[t]]. *)
Lemma emission_checks (t s : Z) (e : E) :
  0 <= t < T -> 0 <= s < len extended_symbols ->
  CTC.emission E logits extended_symbols t s = Ok e ->
  exists k, extended_symbols !! Z.to_nat s = Some k /\ - C <= k < C.
Proof.
  intros Ht Hs Hrun. unfold CTC.emission in Hrun. bind_inv Hrun.
  rewrite index_nonneg in Hx0 by lia.
  destruct (extended_symbols !! Z.to_nat s) as [k|]; [|done]. injection Hx0 as <-.
  exists k. split; [done|]. apply index_in_range in Hrun.
  apply index_elem, list_elem_of_In in Hx.
  destruct Hlogits as [_ Hrows].
  pose proof (proj1 (Forall_forall _ _) Hrows _ Hx) as Hrow. simpl in Hrow. lia.
Qed.

Lemma symbols_checked :
  (forall s, 0 <= s < len extended_symbols ->
     exists k, extended_symbols !! Z.to_nat s = Some k /\ - C <= k < C) ->
  Forall (fun k => - C <= k < C) extended_symbols.
Proof.
  intros Hall. apply Forall_lookup. intros i k Hk.
  destruct (Hall (Z.of_nat i)) as (k' & Hk' & Hrange).
  { apply lookup_lt_Some in Hk. unfold len. lia. }
  rewrite Nat2Z.id in Hk'. congruence.
Qed.

(** With two time steps or more, [get_forward_probs] returns only when every
    extended symbol is an index of the rows of [logits], from the front or,
    negative, from the back, and the mask covers the extended sequence. *)
Theorem get_forward_probs_checks (alpha : matrix) :
  2 <= T ->
  CTC.get_forward_probs E item logits extended_symbols skip_connect = Ok alpha ->
  Forall (fun k => - C <= k < C) extended_symbols
  /\ len extended_symbols <= len skip_connect.
Proof.
  intros HT Hrun. unfold CTC.get_forward_probs in Hrun. cbv zeta in Hrun.
  bind_inv Hrun. destruct Hlogits as [HlenT _].
  assert (Hstep : forall s, 0 <= s < len extended_symbols ->
    (exists k, extended_symbols !! Z.to_nat s = Some k /\ - C <= k < C)
    /\ s < len skip_connect).
  { intros s Hs.
    destruct (for_each_returned _ _ _ _ 1 Hrun) as (a0 & a1 & Hrow).
    { apply elem_of_seqZ. lia. }
    destruct (for_each_returned _ _ _ _ s Hrow) as (b0 & b1 & Hcell).
    { apply elem_of_seqZ. lia. }
    bind_inv Hcell. split.
    - match goal with
      | H : CTC.emission E logits extended_symbols 1 s = Ok ?e |- _ =>
          apply (emission_checks 1 s e); [lia | lia | exact H]
      end.
    - match goal with
      | H : index skip_connect s = Ok _ |- _ => apply index_in_range in H; lia
      end. }
  split.
  - apply symbols_checked. intros s Hs. by apply Hstep.
  - destruct (decide (len extended_symbols = 0)) as [->|Hne]; [unfold len; lia|].
    destruct (Hstep (len extended_symbols - 1)) as [_ Hmask]; unfold len in *; lia.
Qed.

(** With one time step or more, [get_backward_probs] returns only when
    every extended symbol is an index of the rows of [logits]. *)
Theorem get_backward_probs_checks (beta : matrix) :
  1 <= T ->
  CTC.get_backward_probs E item logits extended_symbols skip_connect = Ok beta ->
  Forall (fun k => - C <= k < C) extended_symbols.
Proof.
  intros HT Hrun. unfold CTC.get_backward_probs in Hrun. cbv zeta in Hrun.
  bind_inv Hrun. destruct Hlogits as [HlenT _].
  apply symbols_checked. intros s Hs.
  destruct (for_each_returned _ _ _ _ 0 Hrun) as (a0 & a1 & Hrow).
  { apply reversed_range_elem. lia. }
  destruct (for_each_returned _ _ _ _ s Hrow) as (b0 & b1 & Hcell).
  { apply reversed_range_elem. lia. }
  bind_inv Hcell.
  match goal with
  | H : CTC.emission E logits extended_symbols 0 s = Ok ?e |- _ =>
      apply (emission_checks 0 s e); [lia | lia | exact H]
  end.
Qed.

End Checked.

(** ** Which cells of the tables can hold mass *)
Section Trellis.

Variable logits : matrix.
Variables extended_symbols skip_connect : list Z.
Variables T S C : Z.

Hypothesis Hlogits : has_shape logits T C.
Hypothesis HT : 1 <= T.
Hypothesis Hext : len extended_symbols = S.
Hypothesis HS : 1 < S.
Hypothesis Hsymbols : Forall (fun k => - C <= k < C) extended_symbols.
Hypothesis Hskip : len skip_connect = S.

Lemma P_nonneg (t s : Z) :
  Forall (Forall (fun x => (0 <= x)%Qc)) logits ->
  0 <= t < T -> 0 <= s < S ->
  (0 <= P logits extended_symbols t s)%Qc.
Proof.
  intros Hpos Ht Hs.
  destruct (emission_float logits extended_symbols T S C Hlogits Hext Hsymbols t s Ht Hs)
    as (x & Hem & _).
  unfold P. rewrite Hem. unfold CTC.emission in Hem. bind_inv Hem.
  apply index_elem, list_elem_of_In in Hx. apply index_elem, list_elem_of_In in Hem.
  pose proof (proj1 (Forall_forall _ _) Hpos _ Hx) as Hrow.
  by apply (proj1 (Forall_forall _ _) Hrow).
Qed.

(** At time [t] the forward table is zero beyond the column [2t + 1]: a
    path has moved by two positions a step at most, from the first two. *)
Theorem get_forward_probs_reach (alpha : matrix) :
  CTC.get_forward_probs Qc CTC.item_float logits extended_symbols skip_connect
  = Ok alpha ->
  forall t s, 0 <= t < T -> 2 * t + 2 <= s < S -> entry alpha t s = 0%Qc.
Proof.
  intros Hrun.
  destruct (get_forward_probs_table Qc CTC.item_float logits extended_symbols
              skip_connect T S (P logits extended_symbols))
    as (alpha' & Hrun' & _ & _ & _ & Hzero & Hrec); try done.
  { intros t s Ht Hs. by apply (emission_float logits extended_symbols T S C). }
  { by destruct Hlogits. }
  rewrite Hrun in Hrun'. injection Hrun' as <-.
  assert (Hall : forall n : nat, Z.of_nat n < T ->
            forall s, 2 * Z.of_nat n + 2 <= s < S -> entry alpha (Z.of_nat n) s = 0%Qc).
  { induction n as [|n IH]; intros Hn s Hs.
    - apply Hzero. lia.
    - rewrite Hrec by lia. unfold forward_sum. cbv zeta.
      replace (Z.of_nat (Datatypes.S n) - 1) with (Z.of_nat n) by lia.
      rewrite (IH ltac:(lia) s), (IH ltac:(lia) (s - 1)), (IH ltac:(lia) (s - 2)) by lia.
      destruct (bool_decide _), (skip_at _ _ && _); ring. }
  intros t s Ht Hs. replace t with (Z.of_nat (Z.to_nat t)) by lia. apply Hall; lia.
Qed.

(** Emissions that are not negative give a forward table without a
    negative cell. *)
Theorem get_forward_probs_nonneg (alpha : matrix) :
  Forall (Forall (fun x => (0 <= x)%Qc)) logits ->
  CTC.get_forward_probs Qc CTC.item_float logits extended_symbols skip_connect
  = Ok alpha ->
  forall t s, 0 <= t < T -> 0 <= s < S -> (0 <= entry alpha t s)%Qc.
Proof.
  intros Hpos Hrun.
  destruct (get_forward_probs_table Qc CTC.item_float logits extended_symbols
              skip_connect T S (P logits extended_symbols))
    as (alpha' & Hrun' & _ & H00 & H01 & Hzero & Hrec); try done.
  { intros t s Ht Hs. by apply (emission_float logits extended_symbols T S C). }
  { by destruct Hlogits. }
  rewrite Hrun in Hrun'. injection Hrun' as <-.
  assert (Hall : forall n : nat, Z.of_nat n < T ->
            forall s, 0 <= s < S -> (0 <= entry alpha (Z.of_nat n) s)%Qc).
  { induction n as [|n IH]; intros Hn s Hs.
    - destruct (decide (s = 0)) as [->|Hs0]; [|destruct (decide (s = 1)) as [->|Hs1]].
      + change (Z.of_nat 0) with 0. rewrite H00. apply P_nonneg; [done | lia | lia].
      + change (Z.of_nat 0) with 0. rewrite H01. apply P_nonneg; [done | lia | lia].
      + change (Z.of_nat 0) with 0. rewrite Hzero by lia. done.
    - rewrite Hrec by lia. apply Qcmult_nonneg_nonneg; [|apply P_nonneg; [done | lia | lia]].
      unfold forward_sum. cbv zeta.
      replace (Z.of_nat (Datatypes.S n) - 1) with (Z.of_nat n) by lia.
      repeat apply Qcplus_nonneg_nonneg.
      + apply IH; lia.
      + case_bool_decide; [apply IH; lia | done].
      + destruct (skip_at skip_connect s); cbn [andb]; [|done].
        case_bool_decide; [apply IH; lia | done]. }
  intros t s Ht Hs. replace t with (Z.of_nat (Z.to_nat t)) by lia. apply Hall; lia.
Qed.

(** With positive emissions, the backward table is zero at time [t] before
    the column [S - 2(T - t)]: from there the end of the extended sequence
    is out of reach in the steps that remain. *)
Theorem get_backward_probs_reach (beta : matrix) :
  Forall (Forall (fun x => (0 < x)%Qc)) logits ->
  CTC.get_backward_probs Qc CTC.item_float logits extended_symbols skip_connect
  = Ok beta ->
  forall t s, 0 <= t < T -> 0 <= s < S - 2 * (T - t) -> entry beta t s = 0%Qc.
Proof.
  intros Hpos Hrun.
  destruct (get_backward_probs_table Qc CTC.item_float logits extended_symbols
              skip_connect T S (P logits extended_symbols))
    as (raw & beta' & _ & Hrun' & _ & _ & _ & _ & Hzero & Hrec & Hdiv); try done.
  { intros t s Ht Hs. by apply (emission_float logits extended_symbols T S C). }
  { by destruct Hlogits. }
  rewrite Hrun in Hrun'. injection Hrun' as <-.
  assert (Hall : forall n : nat, Z.of_nat n < T ->
            forall s, 0 <= s < S - 2 * (Z.of_nat n + 1) ->
                      entry raw (T - 1 - Z.of_nat n) s = 0%Qc).
  { induction n as [|n IH]; intros Hn s Hs.
    - replace (T - 1 - Z.of_nat 0) with (T - 1) by lia. apply Hzero. lia.
    - rewrite Hrec by lia. unfold backward_sum. cbv zeta.
      replace (T - 1 - Z.of_nat (Datatypes.S n) + 1) with (T - 1 - Z.of_nat n) by lia.
      rewrite (IH ltac:(lia) s), (IH ltac:(lia) (s + 1)), (IH ltac:(lia) (s + 2)) by lia.
      destruct (bool_decide _), (skip_at _ _ && _); ring. }
  intros t s Ht Hs. rewrite Hdiv by lia.
  replace t with (T - 1 - Z.of_nat (Z.to_nat (T - 1 - t))) at 1 by lia.
  rewrite Hall by lia. unfold Qcdiv. ring.
Qed.

End Trellis.

(** ** From a target to the posterior *)
Section Pipeline.

Variable this : CTC.self.

Lemma extended_mask_len (target ext skip_connect : list Z) :
  CTC.extend_target_with_blank this target = Ok (ext, skip_connect) ->
  len skip_connect = len ext.
Proof.
  unfold CTC.extend_target_with_blank.
  rewrite extended_symbols_foldl. cbn [app].
  set (ext0 := CTC.BLANK this :: _).
  destruct (skip_loop ext0 ext0 0 []) as (bits & Hrun & Hlen & _); [simpl; lia|].
  unfold enumerate.
  rewrite (imap_ext _ (fun i x => (Z.of_nat (0 + i), x))) by done.
  rewrite Hrun. cbn [bind app]. intros [= <- <-]. unfold len. lia.
Qed.

Lemma extended_Forall (Q : Z -> Prop) (target ext skip_connect : list Z) :
  CTC.extend_target_with_blank this target = Ok (ext, skip_connect) ->
  Q (CTC.BLANK this) -> Forall Q target -> Forall Q ext.
Proof.
  intros Hrun Hblank Htarget.
  rewrite (extend_target_with_blank_symbols this _ _ _ Hrun).
  constructor; [done|]. clear Hrun.
  induction Htarget as [|symbol target Hsymbol _ IH]; simpl; [constructor|].
  by repeat constructor.
Qed.

(** On an emission matrix of T >= 1 rows, the extension of a target of one
    label or more whose labels and blank are indices of its columns is
    accepted by both passes, which return tables of shape (T, 2L+1); the
    posterior of the two tables is returned exactly when T = 2L+1 or
    T = 1, and is a shape error for every other number of time steps. *)
Theorem passes_on_extended_target (logits : matrix) (target ext skip_connect : list Z)
    (T C : Z) :
  has_shape logits T C -> 1 <= T -> 1 <= len target ->
  - C <= CTC.BLANK this < C -> Forall (fun k => - C <= k < C) target ->
  CTC.extend_target_with_blank this target = Ok (ext, skip_connect) ->
  exists alpha beta,
    CTC.get_forward_probs Qc CTC.item_float logits ext skip_connect = Ok alpha
    /\ CTC.get_backward_probs Qc CTC.item_float logits ext skip_connect = Ok beta
    /\ has_shape alpha T (2 * len target + 1)
    /\ has_shape beta T (2 * len target + 1)
    /\ ((exists gamma, CTC.get_posterior_probs alpha beta = Ok gamma)
        <-> T = 2 * len target + 1 \/ T = 1)
    /\ (T <> 2 * len target + 1 -> T <> 1 ->
        CTC.get_posterior_probs alpha beta = Raise ValueError).
Proof.
  intros Hlogits HT HL Hblank Htarget Hrun.
  pose proof (extended_len this _ _ _ Hrun) as Hlen.
  pose proof (extended_mask_len _ _ _ Hrun) as Hmask.
  pose proof (extended_Forall (fun k => - C <= k < C) _ _ _ Hrun Hblank Htarget) as Hext.
  set (S := 2 * len target + 1) in *.
  assert (Hp : forall t s, 0 <= t < T -> 0 <= s < S ->
            exists e, CTC.emission Qc logits ext t s = Ok e
                      /\ CTC.item_float e = Ok (P logits ext t s)).
  { intros t s Ht Hs. by apply (emission_float logits ext T S C). }
  destruct (get_forward_probs_table Qc CTC.item_float logits ext skip_connect T S
              (P logits ext)) as (alpha & Halpha & Hsa & _);
    [congruence | done | by destruct Hlogits | done | lia | lia |].
  destruct (get_backward_probs_table Qc CTC.item_float logits ext skip_connect T S
              (P logits ext)) as (raw & beta & _ & Hbeta & _ & Hsb & _);
    [congruence | done | by destruct Hlogits | done | lia | lia |].
  exists alpha, beta. split_and!; [done..| |].
  - rewrite (get_posterior_probs_unfold alpha beta T S) by done.
    pose proof (zip_rows_shape Qcmult alpha beta T S Hsa Hsb) as Hg.
    set (gamma0 := zip_with (zip_with Qcmult) alpha beta) in *.
    unfold idivide, sum_axis1.
    rewrite (ncols_shape gamma0 T S) by done.
    replace (len (map Np.sum gamma0)) with T
      by (destruct Hg as [<- _]; unfold len; by rewrite length_map).
    unfold broadcast_dim.
    repeat case_bool_decide; split; try (intros [gamma Hgamma]; done); try lia;
      intros _; eauto.
  - intros Hne Hne1.
    rewrite (get_posterior_probs_unfold alpha beta T S) by done.
    pose proof (zip_rows_shape Qcmult alpha beta T S Hsa Hsb) as Hg.
    set (gamma0 := zip_with (zip_with Qcmult) alpha beta) in *.
    unfold idivide, sum_axis1.
    rewrite (ncols_shape gamma0 T S) by done.
    replace (len (map Np.sum gamma0)) with T
      by (destruct Hg as [<- _]; unfold len; by rewrite length_map).
    unfold broadcast_dim.
    repeat case_bool_decide; try done; lia.
Qed.

End Pipeline.

(** ** What [CTCLoss.forward] records *)
Section Recorded.

Lemma for_each_count {I St : Type} (count : St -> Z) (xs : list I)
    (body : I -> St -> result St) :
  (forall x st st', body x st = Ok st' -> count st' = count st + 1) ->
  forall st st', for_each xs body st = Ok st' -> count st' = count st + len xs.
Proof.
  intros Hbody. induction xs as [|x xs IH]; intros st st' Hrun; simpl in Hrun.
  - injection Hrun as <-. unfold len. simpl. lia.
  - bind_inv Hrun. rewrite (IH _ _ Hrun), (Hbody _ _ _ Hx). unfold len. simpl. lia.
Qed.

Variable L : Z.

(** The statement for the target leaves every row at its length. *)
Lemma truncate_target_rows (target target' : list (list Z)) (target_lengths : list Z)
    (batch_itr : Z) :
  CTCLoss.truncate_target target target_lengths batch_itr = Ok target' ->
  Forall (fun row => len row = L) target ->
  Forall (fun row => len row = L) target'.
Proof.
  unfold CTCLoss.truncate_target. intros Hrun Hrows. bind_inv Hrun.
  eapply store_Forall; [exact Hrun | done |].
  apply broadcast_to_len in Hx1; [|unfold len; lia].
  apply index_elem, list_elem_of_In in Hx0.
  pose proof (proj1 (Forall_forall _ _) Hrows _ Hx0) as Hrow. simpl in Hrow. lia.
Qed.

(** The extended sequence of a sample is that of a row of the padded
    length. *)
Lemma sample_posterior_extended (this : CTCLoss.self) (logits logits' : tensor)
    (target target' : list (list Z)) (input_lengths target_lengths : list Z)
    (batch_itr : Z) (ext_symbols : list Z) (posterior_prob : matrix) :
  CTCLoss.sample_posterior this logits target input_lengths target_lengths batch_itr
  = Ok (target', logits', ext_symbols, posterior_prob) ->
  Forall (fun row => len row = L) target ->
  Forall (fun row => len row = L) target'
  /\ exists row skip_connect,
       len row = L
       /\ CTC.extend_target_with_blank (CTCLoss.ctc this) row
          = Ok (ext_symbols, skip_connect).
Proof.
  unfold CTCLoss.sample_posterior. intros Hrun Hrows. bind_inv Hrun.
  destruct x2 as [ext skip_connect]. bind_inv Hrun. injection Hrun as <- <- <- <-.
  pose proof (truncate_target_rows _ _ _ _ Hx Hrows) as Hrows'.
  split; [done|]. exists x1, skip_connect. split; [|done].
  apply index_elem, list_elem_of_In in Hx1.
  by apply (proj1 (Forall_forall _ _) Hrows' _ Hx1).
Qed.

(** When [forward] returns on a target array of padded width L, it has
    recorded one extended sequence per sample, each of 2L+1 symbols
    whatever the declared target length, with 0 at every even position
    whatever blank the object was built with. *)
Theorem forward_records_padded_rows (log : Qc -> Qc) (BLANK : Z) (logits : tensor)
    (target : list (list Z)) (input_lengths target_lengths : list Z)
    (loss : Qc) (this : CTCLoss.self) :
  Forall (fun row => len row = L) target ->
  CTCLoss.forward log (CTCLoss.init BLANK) logits target input_lengths target_lengths
  = Ok (loss, this) ->
  len (CTCLoss.extended_symbols this) = len target
  /\ Forall (fun ext => len ext = 2 * L + 1
                        /\ forall i, 0 <= i <= L -> index ext (2 * i) = Ok 0)
       (CTCLoss.extended_symbols this).
Proof.
  intros Hrows Hrun. unfold CTCLoss.forward in Hrun. cbv zeta in Hrun.
  bind_inv Hrun. destruct x as [[[logits' target'] recorded] total_loss].
  injection Hrun as _ <-. cbn [CTCLoss.extended_symbols]. split.
  - apply (for_each_count
             (fun st : tensor * list (list Z) * list (list Z) * list Qc =>
                len (snd (fst st)))) in Hx.
    + simpl in Hx. rewrite Hx. unfold range, len.
      rewrite length_seqZ. simpl. lia.
    + intros batch_itr [[[lg tg] rec] tot] st' Hbody. simpl in Hbody.
      bind_inv Hbody. destruct x as [[[tg' lg'] ext] post]. bind_inv Hbody.
      injection Hbody as <-. simpl. unfold len. rewrite length_app. simpl. lia.
  - apply (for_each_invariant
             (fun st : tensor * list (list Z) * list (list Z) * list Qc =>
                Forall (fun row => len row = L) (snd (fst (fst st)))
                /\ Forall (fun ext => len ext = 2 * L + 1
                             /\ forall i, 0 <= i <= L -> index ext (2 * i) = Ok 0)
                     (snd (fst st)))) in Hx.
    + simpl in Hx. apply Hx.
    + intros batch_itr [[[lg tg] rec] tot] st' _ Hbody [Htg Hrec]. simpl in *.
      bind_inv Hbody. destruct x as [[[tg' lg'] ext] post]. bind_inv Hbody.
      injection Hbody as <-. simpl.
      destruct (sample_posterior_extended _ _ _ _ _ _ _ _ _ _ Hx0 Htg)
        as (Htg' & row & skip_connect & Hrow & Hext).
      split; [done|]. apply Forall_app. split; [done|].
      constructor; [|constructor]. split.
      * rewrite (extended_len _ _ _ _ Hext). lia.
      * intros i Hi.
        apply (extended_even _ row ext skip_connect i Hext). lia.
    + simpl. split; [done | constructor].
Qed.

End Recorded.

(** ** Three-dimensional arrays: reading and writing one cell *)
Section Tensors.

Variables T B C : Z.

Lemma get3_plane (a : tensor) (t b c : Z) :
  get3 a t b c = let* plane := index a t in get2 plane b c.
Proof. reflexivity. Qed.

Lemma set3_plane (a : tensor) (t b c : Z) (v : Qc) :
  set3 a t b c v
  = let* plane := index a t in let* plane' := set2 plane b c v in store a t plane'.
Proof.
  unfold set3, set2. destruct (index a t) as [plane|]; cbn [bind]; [|done].
  destruct (index plane b) as [row|]; cbn [bind]; [|done].
  by destruct (store row c v).
Qed.

Lemma shape3_plane (a : tensor) (t : Z) :
  has_shape3 a T B C -> 0 <= t < T ->
  exists plane, a !! Z.to_nat t = Some plane /\ has_shape plane B C.
Proof.
  intros [Hlen Hplanes] Ht.
  destruct (lookup_lt_is_Some_2 a (Z.to_nat t)) as [plane Hplane]; [unfold len in *; lia|].
  exists plane. split; [done|].
  by apply (Forall_lookup_1 (fun plane => has_shape plane B C) a (Z.to_nat t)).
Qed.

Lemma entry3_plane (a : tensor) (t b c : Z) (plane : matrix) :
  0 <= t -> a !! Z.to_nat t = Some plane -> entry3 a t b c = entry plane b c.
Proof.
  intros Ht Hplane. unfold entry3, entry.
  by rewrite get3_plane, index_nonneg, Hplane by done.
Qed.

Lemma get3_entry (a : tensor) (t b c : Z) :
  has_shape3 a T B C -> 0 <= t < T -> 0 <= b < B -> 0 <= c < C ->
  get3 a t b c = Ok (entry3 a t b c).
Proof.
  intros Ha Ht Hb Hc. destruct (shape3_plane a t Ha Ht) as (plane & Hplane & Hshape).
  rewrite (entry3_plane a t b c plane) by (lia || done).
  rewrite get3_plane, index_nonneg, Hplane by lia. cbn [bind].
  by apply (get2_entry B C).
Qed.

(** [a[t] = plane'] *)
Lemma store_plane_spec (a : tensor) (t : Z) (plane' : matrix) :
  has_shape3 a T B C -> 0 <= t < T -> has_shape plane' B C ->
  exists a',
    store a t plane' = Ok a'
    /\ has_shape3 a' T B C
    /\ (forall b c, entry3 a' t b c = entry plane' b c)
    /\ (forall t' b c, 0 <= t' -> t' <> t -> entry3 a' t' b c = entry3 a t' b c).
Proof.
  intros [Hlen Hplanes] Ht Hplane'.
  exists (<[Z.to_nat t := plane']> a). split_and!.
  - by rewrite store_nonneg by lia.
  - split; [unfold len; by rewrite length_insert | by apply Forall_insert].
  - intros b c. apply entry3_plane; [lia|].
    apply list_lookup_insert_eq. unfold len in *. lia.
  - intros t' b c Ht' Hne. unfold entry3.
    rewrite !get3_plane, !index_nonneg by lia.
    by rewrite list_lookup_insert_ne by lia.
Qed.

(** [a[t, b, c] = v] on an array of shape (T, B, C): the shape stays, the
    cell holds [v], every other cell is as before. *)
Lemma set3_spec (a : tensor) (t b c : Z) (v : Qc) :
  has_shape3 a T B C -> 0 <= t < T -> 0 <= b < B -> 0 <= c < C ->
  exists a',
    set3 a t b c v = Ok a'
    /\ has_shape3 a' T B C
    /\ entry3 a' t b c = v
    /\ (forall t' b' c', 0 <= t' -> 0 <= b' -> 0 <= c' -> (t', b', c') <> (t, b, c) ->
                         entry3 a' t' b' c' = entry3 a t' b' c').
Proof.
  intros Ha Ht Hb Hc. destruct (shape3_plane a t Ha Ht) as (plane & Hplane & Hshape).
  destruct (set2_spec B C plane b c v Hshape Hb Hc) as (plane1 & Hset & Hshape1 & Hv & Hrest).
  destruct (store_plane_spec a t plane1 Ha Ht Hshape1) as (a' & Hstore & Ha' & Hat & Hother).
  exists a'. split_and!; [|done| |].
  - rewrite set3_plane, index_nonneg, Hplane by lia. cbn [bind].
    rewrite Hset. cbn [bind]. done.
  - by rewrite Hat.
  - intros t' b' c' Ht' Hb' Hc' Hne. destruct (decide (t' = t)) as [->|Hnet].
    + rewrite Hat, Hrest by (done || intros Heq; simplify_eq).
      symmetry. apply entry3_plane; [lia | done].
    + by apply Hother.
Qed.

(** [a[t, b, :] = np.zeros(C)] *)
Lemma zero_row_spec (a : tensor) (t b : Z) :
  has_shape3 a T B C -> 0 <= t < T -> 0 <= b < B ->
  exists plane plane1 a',
    index a t = Ok plane
    /\ store plane b (zeros1 C) = Ok plane1
    /\ store a t plane1 = Ok a'
    /\ has_shape3 a' T B C
    /\ (forall c, 0 <= c -> entry3 a' t b c = 0%Qc)
    /\ (forall t' b' c', 0 <= t' -> 0 <= b' -> 0 <= c' -> (t', b') <> (t, b) ->
                         entry3 a' t' b' c' = entry3 a t' b' c').
Proof.
  intros Ha Ht Hb. destruct (shape3_plane a t Ha Ht) as (plane & Hplane & Hshape).
  destruct (shape_row B C plane b Hshape Hb) as (row & Hrow & Hlen).
  assert (HC : 0 <= C) by (unfold len in Hlen; lia).
  assert (Hshape1 : has_shape (<[Z.to_nat b := zeros1 C]> plane) B C).
  { destruct Hshape as [HlenB Hrows]. split.
    - unfold len. by rewrite length_insert.
    - apply Forall_insert; [done|]. unfold zeros1, len. rewrite length_replicate. lia. }
  destruct (store_plane_spec a t _ Ha Ht Hshape1) as (a' & Hstore & Ha' & Hat & Hother).
  exists plane, (<[Z.to_nat b := zeros1 C]> plane), a'. split_and!; [| |done|done| |].
  - by rewrite index_nonneg, Hplane by lia.
  - destruct Hshape as [HlenB _]. by rewrite store_nonneg by lia.
  - intros c Hc. rewrite Hat, entry_lookup by lia.
    destruct Hshape as [HlenB _].
    rewrite list_lookup_insert_eq by (unfold len in *; lia). unfold zeros1.
    destruct (replicate _ _ !! Z.to_nat c) as [x|] eqn:Hx; [|done].
    by apply lookup_replicate in Hx as [-> _].
  - intros t' b' c' Ht' Hb' Hc' Hne. destruct (decide (t' = t)) as [->|Hnet].
    + rewrite Hat, (entry3_plane a t b' c' plane) by (lia || done).
      rewrite !entry_lookup by lia.
      rewrite list_lookup_insert_ne; [done|]. intros Heq. apply Hne. f_equal. lia.
    + by apply Hother.
Qed.

End Tensors.

(** ** The gradient rows of one sample *)
Section Gradient.

Variables logits : tensor.
Variable posterior_prob : matrix.
Variable ext_symbols : list Z.
Variables T B C S batch_itr : Z.

Hypothesis Hlogits : has_shape3 logits T B C.
Hypothesis Hposterior : has_shape posterior_prob T S.
Hypothesis Hext : len ext_symbols = S.
Hypothesis Hsymbols : Forall (fun k => 0 <= k < C) ext_symbols.
Hypothesis Hbatch : 0 <= batch_itr < B.

Lemma symbol_at (s : Z) :
  0 <= s < S -> exists k, index ext_symbols s = Ok k /\ 0 <= k < C.
Proof.
  intros Hs.
  destruct (lookup_lt_is_Some_2 ext_symbols (Z.to_nat s)) as [k Hk];
    [unfold len in *; lia|].
  exists k. split; [by rewrite index_nonneg, Hk by lia|].
  apply (Forall_lookup_1 _ _ _ _ Hsymbols Hk).
Qed.

(** One statement [dY[t, b, ext_symbols[s]] -= posterior_prob[t][s] / logits[...]]. *)
Lemma gradient_step (dY : tensor) (t s : Z) :
  has_shape3 dY T B C -> 0 <= t < T -> 0 <= s < S ->
  exists dY' k,
    index ext_symbols s = Ok k /\ 0 <= k < C
    /\ (let* symbol := index ext_symbols s in
        let* cur := get3 dY t batch_itr symbol in
        let* gamma := get2 posterior_prob t s in
        let* symbol := index ext_symbols s in
        let* p := get3 logits t batch_itr symbol in
        set3 dY t batch_itr symbol (cur - gamma / p)%Qc) = Ok dY'
    /\ has_shape3 dY' T B C
    /\ entry3 dY' t batch_itr k
       = (entry3 dY t batch_itr k
          - entry posterior_prob t s / entry3 logits t batch_itr k)%Qc
    /\ (forall t' b' c', 0 <= t' -> 0 <= b' -> 0 <= c' ->
          (t', b', c') <> (t, batch_itr, k) -> entry3 dY' t' b' c' = entry3 dY t' b' c').
Proof.
  intros HdY Ht Hs. destruct (symbol_at s Hs) as (k & Hk & Hrange).
  destruct (set3_spec T B C dY t batch_itr k
              (entry3 dY t batch_itr k
               - entry posterior_prob t s / entry3 logits t batch_itr k)%Qc)
    as (dY' & Hset & HdY' & Hv & Hrest); [done..|].
  exists dY', k. split_and!; [done | lia | lia | | done | done | done].
  rewrite Hk. cbn [bind]. rewrite (get3_entry T B C dY) by done. cbn [bind].
  rewrite (get2_entry T S posterior_prob) by done. cbn [bind].
  rewrite (get3_entry T B C logits) by done. cbn [bind]. exact Hset.
Qed.

(** The loop over the positions [ss]: every class receives what its
    positions among [ss] contribute. *)
Lemma gradient_row (t : Z) (ss : list Z) : forall dY : tensor,
  has_shape3 dY T B C -> 0 <= t < T -> (forall s, s ∈ ss -> 0 <= s < S) ->
  exists dY',
    for_each ss (fun s dY =>
      let* symbol := index ext_symbols s in
      let* cur := get3 dY t batch_itr symbol in
      let* gamma := get2 posterior_prob t s in
      let* symbol := index ext_symbols s in
      let* p := get3 logits t batch_itr symbol in
      set3 dY t batch_itr symbol (cur - gamma / p)%Qc) dY = Ok dY'
    /\ has_shape3 dY' T B C
    /\ (forall c, 0 <= c < C ->
          entry3 dY' t batch_itr c
          = (entry3 dY t batch_itr c
             - class_mass posterior_prob logits ext_symbols batch_itr t c ss)%Qc)
    /\ (forall t' b' c', 0 <= t' -> 0 <= b' -> 0 <= c' -> (t', b') <> (t, batch_itr) ->
          entry3 dY' t' b' c' = entry3 dY t' b' c').
Proof.
  induction ss as [|s ss IH]; intros dY HdY Ht Hss.
  - exists dY. split_and!; [done | done | | done].
    intros c Hc. unfold class_mass. simpl. ring.
  - destruct (gradient_step dY t s) as (dY1 & k & Hk & Hrange & Hrun1 & HdY1 & Hv1 & Hrest1);
      [done | done | apply Hss, elem_of_cons; auto |].
    destruct (IH dY1) as (dY' & Hrun & HdY' & Hv & Hrest); [done | done | |].
    { intros s' Hs'. apply Hss, elem_of_cons. auto. }
    exists dY'. split_and!; [|done| |].
    + cbn [for_each]. rewrite Hrun1. cbn [bind]. exact Hrun.
    + intros c Hc. rewrite Hv by done. unfold class_mass. cbn [map Np.sum foldr].
      fold (Np.sum (map (fun s0 => if bool_decide (index ext_symbols s0 = Ok c)
                                   then (entry posterior_prob t s0
                                         / entry3 logits t batch_itr c)%Qc
                                   else 0%Qc) ss)).
      rewrite Hk. destruct (decide (k = c)) as [->|Hne].
      * rewrite Hv1, bool_decide_eq_true_2 by done. ring.
      * rewrite Hrest1 by (lia || intros Heq; simplify_eq).
        rewrite bool_decide_eq_false_2 by (intros Heq; simplify_eq). ring.
    + intros t' b' c' Ht' Hb' Hc' Hne. rewrite Hrest by done.
      apply Hrest1; [done..|]. intros Heq. simplify_eq.
Qed.

(** The loop over the time steps [t0, t0 + n). *)
Lemma gradient_rows (n : nat) : forall (t0 : Z) (dY : tensor),
  has_shape3 dY T B C -> 0 <= t0 -> t0 + Z.of_nat n <= T ->
  exists dY',
    for_each (seqZ t0 (Z.of_nat n)) (fun t dY =>
      let* plane := index dY t in
      let* plane := store plane batch_itr (zeros1 C) in
      let* dY := store dY t plane in
      for_each (range 0 S) (fun s dY =>
        let* symbol := index ext_symbols s in
        let* cur := get3 dY t batch_itr symbol in
        let* gamma := get2 posterior_prob t s in
        let* symbol := index ext_symbols s in
        let* p := get3 logits t batch_itr symbol in
        set3 dY t batch_itr symbol (cur - gamma / p)%Qc) dY) dY = Ok dY'
    /\ has_shape3 dY' T B C
    /\ (forall t c, t0 <= t < t0 + Z.of_nat n -> 0 <= c < C ->
          entry3 dY' t batch_itr c
          = (- class_mass posterior_prob logits ext_symbols batch_itr t c (range 0 S))%Qc)
    /\ (forall t b' c, 0 <= t -> 0 <= b' -> 0 <= c ->
          b' <> batch_itr \/ ~ (t0 <= t < t0 + Z.of_nat n) ->
          entry3 dY' t b' c = entry3 dY t b' c).
Proof.
  induction n as [|n IH]; intros t0 dY HdY Ht0 Hn.
  - exists dY. split_and!; [done | done | | done]. intros t c Ht. lia.
  - rewrite seqZ_cons by lia. cbn [for_each].
    destruct (zero_row_spec T B C dY t0 batch_itr)
      as (plane & plane1 & dY0 & Hplane & Hplane1 & Hstore & HdY0 & Hzero & Hrest0);
      [done | lia | done |].
    rewrite Hplane. cbn [bind]. rewrite Hplane1. cbn [bind]. rewrite Hstore. cbn [bind].
    destruct (gradient_row t0 (range 0 S) dY0) as (dY1 & Hrun1 & HdY1 & Hv1 & Hrest1);
      [done | lia | |].
    { intros s Hs. apply elem_of_seqZ in Hs. lia. }
    rewrite Hrun1. cbn [bind].
    replace (Z.pred (Z.of_nat (Datatypes.S n))) with (Z.of_nat n) by lia.
    destruct (IH (Z.succ t0) dY1) as (dY' & Hrun & HdY' & Hv & Hrest); [done | lia | lia |].
    exists dY'. split_and!; [exact Hrun | done | |].
    + intros t c Ht Hc. destruct (decide (t = t0)) as [->|Hne].
      * rewrite Hrest by (lia || right; lia). rewrite Hv1, Hzero by lia. ring.
      * apply Hv; lia.
    + intros t b' c Ht Hb' Hc Hout.
      assert (Hne : (t, b') <> (t0, batch_itr)).
      { intros Heq. simplify_eq. destruct Hout; [done | lia]. }
      rewrite Hrest; [|done..|].
      * rewrite Hrest1 by done. by apply Hrest0.
      * destruct Hout; [by left | right; lia].
Qed.

Lemma class_mass_unused (t c : Z) (ss : list Z) :
  (forall s, index ext_symbols s <> Ok c) ->
  class_mass posterior_prob logits ext_symbols batch_itr t c ss = 0%Qc.
Proof.
  intros Hunused. unfold class_mass. induction ss as [|s ss IH]; [done|].
  cbn [map Np.sum foldr]. unfold Np.sum in IH. rewrite IH.
  rewrite bool_decide_eq_false_2 by apply Hunused. ring.
Qed.

(** The block of [backward] that fills the gradient of the sample [b], on
    arrays of shape (T, B, C), a posterior of shape (T, S) and an extended
    sequence of S symbols in [0, C), with emissions that can be divided
    by.  It returns; the row [dY[t, b, :]] holds, at every time step [t] of
    the array and every class [c], minus the sum of
    [posterior_prob[t][s] / logits[t, b, c]] over the positions [s] that
    hold [c], which is 0 for a class the extended sequence does not hold;
    and the rows of every other sample are as they were. *)
Theorem accumulate_gradient (dY : tensor) :
  has_shape3 dY T B C ->
  (forall t c, 0 <= t < T -> 0 <= c < C -> entry3 logits t batch_itr c <> 0%Qc) ->
  exists dY',
    CTCLoss.accumulate dY logits posterior_prob ext_symbols T C batch_itr = Ok dY'
    /\ has_shape3 dY' T B C
    /\ (forall t c, 0 <= t < T -> 0 <= c < C ->
          entry3 dY' t batch_itr c
          = (- class_mass posterior_prob logits ext_symbols batch_itr t c (range 0 S))%Qc)
    /\ (forall t c, 0 <= t < T -> 0 <= c < C ->
          (forall s, index ext_symbols s <> Ok c) -> entry3 dY' t batch_itr c = 0%Qc)
    /\ (forall t b c, 0 <= t -> 0 <= b -> 0 <= c -> b <> batch_itr ->
          entry3 dY' t b c = entry3 dY t b c).
Proof.
  intros HdY _. assert (HT : 0 <= T) by (destruct HdY as [<- _]; unfold len; lia).
  destruct (gradient_rows (Z.to_nat T) 0 dY) as (dY' & Hrun & HdY' & Hv & Hrest);
    [done | lia | lia |].
  rewrite Z2Nat.id in Hrun, Hv by lia.
  exists dY'. split_and!; [|done| | |].
  - unfold CTCLoss.accumulate, range. rewrite Hext.
    replace (T - 0) with T by lia. exact Hrun.
  - intros t c Ht Hc. apply Hv; lia.
  - intros t c Ht Hc Hunused. rewrite Hv by lia.
    rewrite class_mass_unused by done. ring.
  - intros t b c Ht Hb Hc Hne. apply Hrest; auto.
Qed.

End Gradient.

(** ** The loss of one sample *)
Section Divergence.

Variable log : Qc -> Qc.
Variable logits : tensor.
Variables ext_symbols input_lengths : list Z.
Variables T B C S batch_itr length : Z.

Hypothesis Hlogits : has_shape3 logits T B C.
Hypothesis Hext : len ext_symbols = S.
Hypothesis Hsymbols : Forall (fun k => 0 <= k < C) ext_symbols.
Hypothesis Hbatch : 0 <= batch_itr < B.
Hypothesis Hlength : index input_lengths batch_itr = Ok length.
Hypothesis Hsteps : 0 <= length <= T.

(** One statement [posterior_prob[t][s] *= np.log(logits[t, b, ext_symbols[s]])]. *)
Lemma divergence_step (a : matrix) (t s : Z) :
  has_shape a T S -> 0 <= t < T -> 0 <= s < S ->
  exists a',
    (let* cur := get2 a t s in
     let* symbol := index ext_symbols s in
     let* p := get3 logits t batch_itr symbol in
     set2 a t s (cur * log p)%Qc) = Ok a'
    /\ has_shape a' T S
    /\ entry a' t s = (entry a t s * log (emitted logits ext_symbols batch_itr t s))%Qc
    /\ (forall u v, 0 <= u -> 0 <= v -> (u, v) <> (t, s) -> entry a' u v = entry a u v).
Proof.
  intros Ha Ht Hs.
  destruct (symbol_at ext_symbols C S Hext Hsymbols s Hs) as (k & Hk & Hrange).
  rewrite (get2_entry T S a t s) by done. cbn [bind]. rewrite Hk. cbn [bind].
  rewrite (get3_entry T B C logits) by done. cbn [bind].
  unfold emitted. rewrite Hk.
  destruct (set2_spec T S a t s (entry a t s * log (entry3 logits t batch_itr k))%Qc)
    as (a1 & -> & Ha1 & Hv1 & Hr1); [done..|].
  by exists a1.
Qed.

Lemma divergence_row (a : matrix) (t : Z) :
  has_shape a T S -> 0 <= t < T ->
  exists a',
    for_each (range 0 S) (fun s posterior_prob =>
      let* cur := get2 posterior_prob t s in
      let* symbol := index ext_symbols s in
      let* p := get3 logits t batch_itr symbol in
      set2 posterior_prob t s (cur * log p)%Qc) a = Ok a'
    /\ has_shape a' T S
    /\ (forall s, 0 <= s < S ->
          entry a' t s = (entry a t s * log (emitted logits ext_symbols batch_itr t s))%Qc)
    /\ (forall u v, 0 <= u -> 0 <= v -> u <> t -> entry a' u v = entry a u v).
Proof.
  intros Ha Ht.
  edestruct (row_loop T S) with
    (t := t)
    (V := fun a s => (entry a t s * log (emitted logits ext_symbols batch_itr t s))%Qc)
    (js := range 0 S) (a := a) as (a' & Hrun & Ha' & Hval & Hrest);
    [| | | |exact Ha| |].
  - apply NoDup_seqZ.
  - intros j Hj. apply elem_of_seqZ in Hj. lia.
  - intros a0 j Hj Ha0. apply elem_of_seqZ in Hj.
    apply (divergence_step a0 t j); try done; lia.
  - intros a0 a0' j Hj Hagree. apply elem_of_seqZ in Hj. simpl. f_equal.
    apply Hagree; [lia..|]. by right.
  - lia.
  - exists a'. split_and!; [exact Hrun|done| |].
    + intros s Hs. apply Hval, elem_of_seqZ. lia.
    + intros u v Hu Hv Hne. apply Hrest; [done..|]. intros [? _]. done.
Qed.

Lemma divergence_rows (n : nat) : forall (t0 : Z) (a : matrix),
  has_shape a T S -> 0 <= t0 -> t0 + Z.of_nat n <= T ->
  exists a',
    for_each (seqZ t0 (Z.of_nat n)) (fun t posterior_prob =>
      for_each (range 0 S) (fun s posterior_prob =>
        let* cur := get2 posterior_prob t s in
        let* symbol := index ext_symbols s in
        let* p := get3 logits t batch_itr symbol in
        set2 posterior_prob t s (cur * log p)%Qc) posterior_prob) a = Ok a'
    /\ has_shape a' T S
    /\ (forall t s, t0 <= t < t0 + Z.of_nat n -> 0 <= s < S ->
          entry a' t s = (entry a t s * log (emitted logits ext_symbols batch_itr t s))%Qc)
    /\ (forall u v, 0 <= u -> 0 <= v -> ~ (t0 <= u < t0 + Z.of_nat n) ->
          entry a' u v = entry a u v).
Proof.
  induction n as [|n IH]; intros t0 a Ha Ht0 Hn.
  - exists a. split_and!; [done | done | | done]. intros t s Ht. lia.
  - rewrite seqZ_cons by lia. cbn [for_each].
    destruct (divergence_row a t0) as (a1 & Hrun1 & Ha1 & Hval1 & Hrest1); [done | lia |].
    rewrite Hrun1. cbn [bind].
    replace (Z.pred (Z.of_nat (Datatypes.S n))) with (Z.of_nat n) by lia.
    destruct (IH (Z.succ t0) a1) as (a' & Hrun & Ha' & Hval & Hrest); [done | lia | lia |].
    exists a'. split_and!; [exact Hrun | done | |].
    + intros t s Ht Hs. destruct (decide (t = t0)) as [->|Hne].
      * rewrite Hrest by lia. by apply Hval1.
      * rewrite Hval by lia. f_equal. apply Hrest1; lia.
    + intros u v Hu Hv Hout. rewrite Hrest by lia. apply Hrest1; lia.
Qed.

(** The loss of one sample, for a posterior of shape (T, S), an extended
    sequence of S symbols in [0, C) and an input length in [0, T]: the
    rows of the posterior below the input length are multiplied, entry by
    entry, by the logarithm of [logits[t, b, ext_symbols[s]]]; the rows from
    the input length on are left as they are; and the loss is minus the
    sum of the whole table, the rows left as they are included. *)
Theorem expected_divergence_table (posterior_prob : matrix) :
  has_shape posterior_prob T S ->
  exists table,
    has_shape table T S
    /\ (forall t s, 0 <= t < length -> 0 <= s < S ->
          entry table t s
          = (entry posterior_prob t s
             * log (emitted logits ext_symbols batch_itr t s))%Qc)
    /\ (forall t s, length <= t -> 0 <= s -> entry table t s = entry posterior_prob t s)
    /\ CTCLoss.expected_divergence log posterior_prob logits input_lengths ext_symbols
         batch_itr
       = Ok (Np.sum (sum_axis1 table) * - (1))%Qc.
Proof.
  intros Hposterior.
  destruct (divergence_rows (Z.to_nat length) 0 posterior_prob)
    as (table & Hrun & Htable & Hval & Hrest); [done | lia | lia |].
  rewrite Z2Nat.id in Hrun by lia.
  exists table. split_and!; [done | | |].
  - intros t s Ht Hs. apply Hval; lia.
  - intros t s Ht Hs. apply Hrest; lia.
  - unfold CTCLoss.expected_divergence. rewrite Hlength. cbn [bind].
    unfold range at 1. rewrite Hext.
    replace (length - 0) with length by lia.
    rewrite Hrun. done.
Qed.

End Divergence.

(** ** What the truncation statements do *)
Section Truncated.

Lemma store_same {A : Type} (l : list A) (k : Z) (x : A) :
  index l k = Ok x -> store l k x = Ok l.
Proof.
  unfold index, store. destruct (position (len l) k) as [i|]; [|done].
  destruct (l !! i) as [y|] eqn:Hy; [|done]. intros [= <-].
  by rewrite list_insert_id.
Qed.

(** The statement [target[b] = target[b, :target_lengths[b]]], for a
    declared length that is not negative.  When the declared length covers
    the padded row, the target is left as it is.  When it is 1, every
    label of the row is overwritten with the first one.  In every other
    case the statement raises the broadcasting error; the row is never
    shortened. *)
Theorem truncate_target_outcome (target : list (list Z)) (target_lengths : list Z)
    (batch_itr declared : Z) (row : list Z) :
  index target_lengths batch_itr = Ok declared ->
  index target batch_itr = Ok row ->
  0 <= declared ->
  (len row <= declared ->
     CTCLoss.truncate_target target target_lengths batch_itr = Ok target)
  /\ (declared = 1 -> 1 <= len row ->
      exists first,
        index row 0 = Ok first
        /\ CTCLoss.truncate_target target target_lengths batch_itr
           = store target batch_itr (replicate (length row) first))
  /\ (declared < len row -> declared <> 1 ->
      CTCLoss.truncate_target target target_lengths batch_itr = Raise ValueError).
Proof.
  intros Hlength Hrow Hpos. unfold CTCLoss.truncate_target.
  rewrite Hlength, Hrow. cbn [bind]. unfold slice_to.
  rewrite (bool_decide_eq_false_2 (declared < 0)) by lia. split_and!.
  - intros Hcover. rewrite take_ge by (unfold len in *; lia).
    unfold broadcast_to. rewrite bool_decide_eq_true_2 by done. cbn [bind].
    by apply store_same.
  - intros -> Hone. destruct row as [|first row]; [unfold len in *; simpl in *; lia|].
    exists first. split; [done|]. simpl. rewrite take_0. unfold broadcast_to.
    case_bool_decide as Hlen; cbn [bind].
    + destruct row; [done | unfold len in *; simpl in *; lia].
    + rewrite bool_decide_eq_true_2 by done. cbn [bind stretch].
      unfold len. by rewrite Nat2Z.id.
  - intros Hshort Hne. unfold broadcast_to, len in *. rewrite !length_take.
    by rewrite !bool_decide_eq_false_2 by lia.
Qed.

Variables T B C : Z.

Lemma traverse_rows (logits : tensor) (batch_itr : Z) :
  Forall (fun plane => has_shape plane B C) logits -> 0 <= batch_itr < B ->
  CTCLoss.traverse (fun plane => index plane batch_itr) logits
  = Ok (map (fun plane : matrix => default [] (plane !! Z.to_nat batch_itr)) logits).
Proof.
  intros Hplanes Hb. induction Hplanes as [|plane logits Hplane _ IH]; [done|].
  simpl. destruct (shape_row B C plane batch_itr Hplane Hb) as (row & Hrow & _).
  rewrite index_nonneg, Hrow by lia. cbn [bind]. rewrite IH. done.
Qed.

Lemma traverse_store (logits : tensor) (batch_itr : Z) : forall rows : list (list Qc),
  Forall (fun plane => has_shape plane B C) logits -> 0 <= batch_itr < B ->
  CTCLoss.traverse (fun '(plane, row) => store plane batch_itr row) (zip logits rows)
  = Ok (zip_with (fun (plane : matrix) row => <[Z.to_nat batch_itr := row]> plane)
          logits rows).
Proof.
  intros rows Hplanes Hb. revert rows.
  induction Hplanes as [|plane logits Hplane _ IH]; intros [|row rows]; try done.
  simpl. destruct Hplane as [HlenB _]. rewrite store_nonneg by lia. cbn [bind].
  rewrite IH. done.
Qed.

Lemma rows_back (logits : tensor) (i : nat) :
  zip_with (fun (plane : matrix) row => <[i := row]> plane) logits
    (map (fun plane : matrix => default [] (plane !! i)) logits)
  = logits.
Proof.
  induction logits as [|plane logits IH]; [done|]. simpl. rewrite IH. f_equal.
  destruct (plane !! i) as [row|] eqn:Hrow; simpl.
  - by apply list_insert_id.
  - apply list_insert_ge. by apply lookup_ge_None.
Qed.

(** The statement [logits[:, b, :] = logits[:input_lengths[b], b, :]] on an
    array of shape (T, B, C), for an input length that is not negative.
    When the input length covers the T time steps, the array is left as it
    is.  When it is 1, the row of the sample at every time step is
    overwritten with its row at time 0, and the other samples are left
    alone.  In every other case the statement raises the broadcasting
    error; no time step is ever removed. *)
Theorem truncate_logits_outcome (logits : tensor) (input_lengths : list Z)
    (batch_itr declared : Z) :
  has_shape3 logits T B C -> 0 <= batch_itr < B ->
  index input_lengths batch_itr = Ok declared -> 0 <= declared ->
  (T <= declared -> CTCLoss.truncate_logits logits input_lengths batch_itr = Ok logits)
  /\ (declared = 1 -> 1 <= T ->
      exists logits',
        CTCLoss.truncate_logits logits input_lengths batch_itr = Ok logits'
        /\ len logits' = T
        /\ (forall t c, 0 <= t < T -> 0 <= c ->
              entry3 logits' t batch_itr c = entry3 logits 0 batch_itr c)
        /\ (forall t b c, 0 <= t -> 0 <= b -> 0 <= c -> b <> batch_itr ->
              entry3 logits' t b c = entry3 logits t b c))
  /\ (declared < T -> declared <> 1 ->
      CTCLoss.truncate_logits logits input_lengths batch_itr = Raise ValueError).
Proof.
  intros [HlenT Hplanes] Hb Hlength Hpos. unfold CTCLoss.truncate_logits.
  rewrite Hlength. cbn [bind]. rewrite (traverse_rows logits batch_itr) by done.
  cbn [bind]. unfold slice_to. rewrite (bool_decide_eq_false_2 (declared < 0)) by lia.
  set (rows := map _ logits).
  assert (Hrows : len rows = T) by (subst rows; unfold len in *; by rewrite length_map).
  split_and!.
  - intros Hcover. rewrite take_ge by (unfold len in *; lia).
    unfold broadcast_to. rewrite bool_decide_eq_true_2 by congruence. cbn [bind].
    rewrite traverse_store by done. subst rows. by rewrite rows_back.
  - intros -> HT. destruct logits as [|plane0 logits]; [unfold len in *; simpl in *; lia|].
    subst rows. cbn [map]. set (row0 := default [] (plane0 !! Z.to_nat batch_itr)).
    simpl take. rewrite take_0.
    assert (Hbroadcast :
      broadcast_to (len (plane0 :: logits)) [row0]
      = Ok (replicate (length (plane0 :: logits)) row0)).
    { unfold broadcast_to. case_bool_decide as Hone.
      - destruct logits; [done | unfold len in *; simpl in *; lia].
      - rewrite bool_decide_eq_true_2 by done. cbn [stretch]. do 2 f_equal.
        unfold len. lia. }
    rewrite Hbroadcast. cbn [bind]. rewrite traverse_store by done.
    eexists. split; [done|]. split_and!.
    + unfold len in *. rewrite length_zip_with, length_replicate. lia.
    + intros t c Ht Hc.
      destruct (lookup_lt_is_Some_2 (plane0 :: logits) (Z.to_nat t)) as [plane Hplane];
        [unfold len in *; lia|].
      pose proof (Forall_lookup_1 _ _ _ _ Hplanes Hplane) as [HlenB _]. simpl in HlenB.
      pose proof (Forall_lookup_1 _ _ 0%nat plane0 Hplanes eq_refl) as Hshape0.
      simpl in Hshape0.
      destruct (shape_row B C plane0 batch_itr Hshape0 Hb) as (r0 & Hr0 & _).
      rewrite (entry3_plane _ t batch_itr c (<[Z.to_nat batch_itr := row0]> plane)).
      * rewrite (entry3_plane _ 0 batch_itr c plane0) by done.
        rewrite !entry_lookup by lia.
        rewrite list_lookup_insert_eq by (unfold len in *; lia).
        subst row0. by rewrite Hr0.
      * lia.
      * rewrite lookup_zip_with, Hplane.
        rewrite lookup_replicate_2 by (unfold len in *; lia). done.
    + intros t b c Ht Hb' Hc Hne. unfold entry3. rewrite !get3_plane, !index_nonneg by lia.
      rewrite lookup_zip_with.
      destruct ((plane0 :: logits) !! Z.to_nat t) as [plane|] eqn:Hplane;
        cbn [mbind option_bind]; [|done].
      apply lookup_lt_Some in Hplane as Hlt.
      rewrite lookup_replicate_2 by done. cbn [mbind option_bind bind]. unfold get2.
      rewrite !index_nonneg by lia. by rewrite list_lookup_insert_ne by lia.
  - intros Hshort Hne. unfold broadcast_to. unfold len in *. rewrite !length_take.
    by rewrite !bool_decide_eq_false_2 by lia.
Qed.

End Truncated.

(** * Instances *)

(** The target [1, 2, 2, 3] of the docstring. *)
Lemma extend_target_with_blank_interleaves_witness :
  (forall i, 0 <= i <= len [1; 2; 2; 3] ->
     index [0; 1; 0; 2; 0; 2; 0; 3; 0] (2 * i) = Ok (CTC.BLANK CTC.init_default))
  /\ (forall i, 0 <= i < len [1; 2; 2; 3] ->
        index [0; 1; 0; 2; 0; 2; 0; 3; 0] (2 * i + 1) = index [1; 2; 2; 3] i)
  /\ index [0; 1; 0; 2; 0; 2; 0; 3; 0] 0 = Ok (CTC.BLANK CTC.init_default)
  /\ index [0; 1; 0; 2; 0; 2; 0; 3; 0] (-1) = Ok (CTC.BLANK CTC.init_default).
Proof.
  apply (extend_target_with_blank_interleaves CTC.init_default [1; 2; 2; 3]
           [0; 1; 0; 2; 0; 2; 0; 3; 0] [0; 1; 0; 0; 0; 1; 0; 0; 0]).
  reflexivity.
Defined.

Lemma extend_target_with_blank_mask_by_label_witness :
  (forall i, 0 <= i <= len [1; 2; 2; 3] ->
     index [0; 1; 0; 0; 0; 1; 0; 0; 0] (2 * i) = Ok 0)
  /\ (forall i, 0 <= i < len [1; 2; 2; 3] ->
        index [0; 1; 0; 0; 0; 1; 0; 0; 0] (2 * i + 1)
        = Ok (if bool_decide (i + 1 < len [1; 2; 2; 3]
                              /\ index [1; 2; 2; 3] i <> index [1; 2; 2; 3] (i + 1))
              then 1 else 0)).
Proof.
  apply (extend_target_with_blank_mask_by_label CTC.init_default [1; 2; 2; 3]
           [0; 1; 0; 2; 0; 2; 0; 3; 0] [0; 1; 0; 0; 0; 1; 0; 0; 0]).
  reflexivity.
Defined.

(** Three time steps over two classes, the target [1]. *)
Lemma get_forward_probs_shape_witness :
  has_shape [[1; 1; 0]; [1; Q2Qc 2; 1]; [1; Q2Qc 3; Q2Qc 3]]%Qc
    (len [[1; 1]; [1; 1]; [1; 1]]%Qc) (len [0; 1; 0]).
Proof.
  apply (get_forward_probs_shape Qc CTC.item_float [[1; 1]; [1; 1]; [1; 1]]%Qc
           [0; 1; 0] [0; 0; 0]).
  compute_done.
Defined.

Lemma get_backward_probs_shape_witness :
  has_shape [[Q2Qc 3; Q2Qc 3; 1]; [1; Q2Qc 2; 1]; [0; 1; 1]]%Qc
    (len [[1; 1]; [1; 1]; [1; 1]]%Qc) (len [0; 1; 0]).
Proof.
  apply (get_backward_probs_shape Qc CTC.item_float [[1; 1]; [1; 1]; [1; 1]]%Qc
           [0; 1; 0] [0; 0; 0]).
  compute_done.
Defined.

(** The extension of the empty target, on one time step. *)
Lemma passes_need_two_symbols_witness :
  CTC.get_forward_probs Qc CTC.item_float [[1; 1]]%Qc [0] [0] = Raise IndexError
  /\ CTC.get_backward_probs Qc CTC.item_float [[1; 1]]%Qc [0] [0] = Raise IndexError.
Proof.
  apply (passes_need_two_symbols [[1; 1]]%Qc [0] [0]). right. vm_compute. reflexivity.
Defined.

Lemma get_forward_probs_checks_witness :
  Forall (fun k => - 2 <= k < 2) [0; 1; 0] /\ len [0; 1; 0] <= len [0; 0; 0].
Proof.
  apply (get_forward_probs_checks Qc CTC.item_float [[1; 1]; [1; 1]; [1; 1]]%Qc
           [0; 1; 0] [0; 0; 0] 3 2
           ltac:(split; [reflexivity | repeat constructor])
           [[1; 1; 0]; [1; Q2Qc 2; 1]; [1; Q2Qc 3; Q2Qc 3]]%Qc).
  - lia.
  - compute_done.
Defined.

Lemma get_backward_probs_checks_witness :
  Forall (fun k => - 2 <= k < 2) [0; 1; 0].
Proof.
  apply (get_backward_probs_checks Qc CTC.item_float [[1; 1]; [1; 1]; [1; 1]]%Qc
           [0; 1; 0] [0; 0; 0] 3 2
           ltac:(split; [reflexivity | repeat constructor])
           [[Q2Qc 3; Q2Qc 3; 1]; [1; Q2Qc 2; 1]; [0; 1; 1]]%Qc).
  - lia.
  - compute_done.
Defined.

Lemma get_forward_probs_reach_witness :
  entry [[1; 1; 0]; [1; Q2Qc 2; 1]; [1; Q2Qc 3; Q2Qc 3]]%Qc 0 2 = 0%Qc.
Proof.
  apply (get_forward_probs_reach [[1; 1]; [1; 1]; [1; 1]]%Qc [0; 1; 0] [0; 0; 0] 3 3 2).
  - split; [reflexivity | repeat constructor].
  - lia.
  - reflexivity.
  - lia.
  - repeat constructor; lia.
  - reflexivity.
  - compute_done.
  - lia.
  - lia.
Defined.

Lemma get_forward_probs_nonneg_witness :
  (0 <= entry [[1; 1; 0]; [1; Q2Qc 2; 1]; [1; Q2Qc 3; Q2Qc 3]]%Qc 2 1)%Qc.
Proof.
  apply (get_forward_probs_nonneg [[1; 1]; [1; 1]; [1; 1]]%Qc [0; 1; 0] [0; 0; 0] 3 3 2).
  - split; [reflexivity | repeat constructor].
  - lia.
  - reflexivity.
  - lia.
  - repeat constructor; lia.
  - reflexivity.
  - repeat constructor; compute_done.
  - compute_done.
  - lia.
  - lia.
Defined.

(** One time step: the first position cannot reach the end. *)
Lemma get_backward_probs_reach_witness :
  entry [[0; 1; 1]]%Qc 0 0 = 0%Qc.
Proof.
  apply (get_backward_probs_reach [[1; 1]]%Qc [0; 1; 0] [0; 0; 0] 1 3 2).
  - split; [reflexivity | repeat constructor].
  - lia.
  - reflexivity.
  - lia.
  - repeat constructor; lia.
  - reflexivity.
  - repeat constructor; compute_done.
  - compute_done.
  - lia.
  - lia.
Defined.

(** The target [1] on three time steps, where T = 2L+1. *)
Lemma passes_on_extended_target_witness :
  exists alpha beta,
    CTC.get_forward_probs Qc CTC.item_float [[1; 1]; [1; 1]; [1; 1]]%Qc
      [0; 1; 0] [0; 0; 0] = Ok alpha
    /\ CTC.get_backward_probs Qc CTC.item_float [[1; 1]; [1; 1]; [1; 1]]%Qc
         [0; 1; 0] [0; 0; 0] = Ok beta
    /\ has_shape alpha 3 (2 * len [1] + 1)
    /\ has_shape beta 3 (2 * len [1] + 1)
    /\ ((exists gamma, CTC.get_posterior_probs alpha beta = Ok gamma)
        <-> 3 = 2 * len [1] + 1 \/ 3 = 1)
    /\ (3 <> 2 * len [1] + 1 -> 3 <> 1 ->
        CTC.get_posterior_probs alpha beta = Raise ValueError).
Proof.
  apply (passes_on_extended_target CTC.init_default [[1; 1]; [1; 1]; [1; 1]]%Qc
           [1] [0; 1; 0] [0; 0; 0] 3 2).
  - split; [reflexivity | repeat constructor].
  - lia.
  - vm_compute. discriminate.
  - simpl. lia.
  - repeat constructor; lia.
  - reflexivity.
Defined.

(** Five time steps of a one-class batch, the target [[0, 0]] of declared
    length 1, an object built with the blank 7, and [x - 1] standing for
    the logarithm. *)
Lemma forward_records_padded_rows_witness :
  exists loss this,
    CTCLoss.forward (fun x => (x - 1)%Qc) (CTCLoss.init 7)
      [[[Q2Qc 0.5]]; [[Q2Qc 0.5]]; [[Q2Qc 0.5]]; [[Q2Qc 0.5]]; [[Q2Qc 0.5]]]
      [[0; 0]] [5] [1] = Ok (loss, this)
    /\ len (CTCLoss.extended_symbols this) = len [[0; 0]]
    /\ Forall (fun ext => len ext = 2 * 2 + 1
                          /\ forall i, 0 <= i <= 2 -> index ext (2 * i) = Ok 0)
         (CTCLoss.extended_symbols this).
Proof.
  eexists _, _. split; [vm_compute; reflexivity|].
  eapply (forward_records_padded_rows 2 (fun x => (x - 1)%Qc) 7
           [[[Q2Qc 0.5]]; [[Q2Qc 0.5]]; [[Q2Qc 0.5]]; [[Q2Qc 0.5]]; [[Q2Qc 0.5]]]
           [[0; 0]] [5] [1]).
  - repeat constructor.
  - vm_compute. reflexivity.
Defined.

(** Two tables of shape (2, 2). *)
Lemma get_posterior_probs_returns_witness :
  (exists gamma, CTC.get_posterior_probs [[1; 1]; [1; 1]]%Qc [[1; 1]; [1; 1]]%Qc
                 = Ok gamma) <-> 2 = 2 \/ 2 = 1.
Proof.
  apply (get_posterior_probs_returns [[1; 1]; [1; 1]]%Qc [[1; 1]; [1; 1]]%Qc 2 2).
  - split; [reflexivity | repeat constructor].
  - split; [reflexivity | repeat constructor].
  - lia.
Defined.


(** One time step, alpha = [0.3, 0.7, 0] and beta = [1, 1, 1]. *)
Lemma get_posterior_probs_one_step_witness :
  CTC.get_posterior_probs [[Q2Qc 0.3; Q2Qc 0.7; 0%Qc]] [[1; 1; 1]]%Qc
  = Ok [map (fun x => (x / Np.sum (zip_with Qcmult [Q2Qc 0.3; Q2Qc 0.7; 0%Qc]
                                     [1; 1; 1]%Qc))%Qc)
          (zip_with Qcmult [Q2Qc 0.3; Q2Qc 0.7; 0%Qc] [1; 1; 1]%Qc)]
  /\ Np.sum (map (fun x => (x / Np.sum (zip_with Qcmult [Q2Qc 0.3; Q2Qc 0.7; 0%Qc]
                                          [1; 1; 1]%Qc))%Qc)
               (zip_with Qcmult [Q2Qc 0.3; Q2Qc 0.7; 0%Qc] [1; 1; 1]%Qc)) = 1%Qc.
Proof.
  apply (get_posterior_probs_one_step [Q2Qc 0.3; Q2Qc 0.7; 0%Qc] [1; 1; 1]%Qc).
  - reflexivity.
  - compute_done.
Defined.

(** The batch of one sample, one time step and two classes. *)
Lemma forward_raises_on_two_classes_witness :
  raises (CTCLoss.forward (fun x => (x - 1)%Qc) (CTCLoss.init 0)
            [[[Q2Qc 0.3; Q2Qc 0.7]]] [[1]] [1] [1]).
Proof.
  apply (forward_raises_on_two_classes (fun x => (x - 1)%Qc) (CTCLoss.init 0)
           [[[Q2Qc 0.3; Q2Qc 0.7]]] [[1]] [1] [1]).
  - vm_compute. discriminate.
  - repeat constructor; vm_compute; discriminate.
Defined.

Lemma backward_raises_on_two_classes_witness :
  raises (CTCLoss.backward
            {| CTCLoss.BLANK := 0; CTCLoss.gammas := []; CTCLoss.ctc := CTC.init_default;
               CTCLoss.saved :=
                 Some {| CTCLoss.logits := [[[Q2Qc 0.3; Q2Qc 0.7]]];
                         CTCLoss.target := [[1]];
                         CTCLoss.input_lengths := [1];
                         CTCLoss.target_lengths := [1] |};
               CTCLoss.extended_symbols := [] |}).
Proof.
  apply (backward_raises_on_two_classes _
           {| CTCLoss.logits := [[[Q2Qc 0.3; Q2Qc 0.7]]]; CTCLoss.target := [[1]];
              CTCLoss.input_lengths := [1]; CTCLoss.target_lengths := [1] |}).
  - reflexivity.
  - vm_compute. discriminate.
  - repeat constructor; vm_compute; discriminate.
Defined.

(** The row [1, 2] with the declared length 1. *)
Lemma truncate_target_keeps_length_witness : len [1; 1] = len [1; 2].
Proof.
  apply (truncate_target_keeps_length [[1; 2]] [[1; 1]] [1] 0 [1; 2] [1; 1]);
    reflexivity.
Defined.

(** One time step, two samples, two classes; the rows of the second sample
    hold ones before the block runs for the first. *)
Lemma accumulate_gradient_witness :
  exists dY',
    CTCLoss.accumulate [[[0; 0]; [1; 1]]]%Qc [[[1; Q2Qc 2]; [1; 1]]]%Qc [[1; 1; 1]]%Qc
      [0; 1; 0] 1 2 0 = Ok dY'
    /\ has_shape3 dY' 1 2 2
    /\ (forall t c, 0 <= t < 1 -> 0 <= c < 2 ->
          entry3 dY' t 0 c
          = (- class_mass [[1; 1; 1]]%Qc [[[1; Q2Qc 2]; [1; 1]]]%Qc [0; 1; 0]%Z 0 t c
                 (range 0 3))%Qc)
    /\ (forall t c, 0 <= t < 1 -> 0 <= c < 2 ->
          (forall s, index [0; 1; 0] s <> Ok c) -> entry3 dY' t 0 c = 0%Qc)
    /\ (forall t b c, 0 <= t -> 0 <= b -> 0 <= c -> b <> 0 ->
          entry3 dY' t b c = entry3 [[[0; 0]; [1; 1]]]%Qc t b c).
Proof.
  apply (accumulate_gradient [[[1; Q2Qc 2]; [1; 1]]]%Qc [[1; 1; 1]]%Qc [0; 1; 0]
           1 2 2 3 0).
  - split; [reflexivity | repeat constructor].
  - split; [reflexivity | repeat constructor].
  - reflexivity.
  - repeat constructor; lia.
  - lia.
  - split; [reflexivity | repeat constructor].
  - intros t c Ht Hc. assert (t = 0) as -> by lia.
    assert (c = 0 \/ c = 1) as [-> | ->] by lia; compute_done.
Defined.

(** One sample of two time steps with the input length 1, and [x - 1]
    standing for the logarithm. *)
Lemma expected_divergence_table_witness :
  exists table,
    has_shape table 2 3
    /\ (forall t s, 0 <= t < 1 -> 0 <= s < 3 ->
          entry table t s
          = (entry [[1; 1; 1]; [1; 1; 1]]%Qc t s
             * (emitted [[[Q2Qc 2; Q2Qc 3]]; [[Q2Qc 2; Q2Qc 3]]] [0; 1; 0]%Z 0 t s - 1))%Qc)
    /\ (forall t s, 1 <= t -> 0 <= s ->
          entry table t s = entry [[1; 1; 1]; [1; 1; 1]]%Qc t s)
    /\ CTCLoss.expected_divergence (fun x => (x - 1)%Qc) [[1; 1; 1]; [1; 1; 1]]%Qc
         [[[Q2Qc 2; Q2Qc 3]]; [[Q2Qc 2; Q2Qc 3]]] [1] [0; 1; 0] 0
       = Ok (Np.sum (sum_axis1 table) * - (1))%Qc.
Proof.
  apply (expected_divergence_table (fun x => (x - 1)%Qc)
           [[[Q2Qc 2; Q2Qc 3]]; [[Q2Qc 2; Q2Qc 3]]] [0; 1; 0] [1] 2 1 2 3 0 1).
  - split; [reflexivity | repeat constructor].
  - reflexivity.
  - repeat constructor; lia.
  - lia.
  - reflexivity.
  - lia.
  - split; [reflexivity | repeat constructor].
Defined.

(** The rows [1, 2, 3] and [4, 5, 6] with the declared lengths 3 and 1. *)
Lemma truncate_target_outcome_witness :
  (len [4; 5; 6] <= 1 ->
     CTCLoss.truncate_target [[1; 2; 3]; [4; 5; 6]] [3; 1] 1 = Ok [[1; 2; 3]; [4; 5; 6]])
  /\ (1 = 1 -> 1 <= len [4; 5; 6] ->
      exists first,
        index [4; 5; 6] 0 = Ok first
        /\ CTCLoss.truncate_target [[1; 2; 3]; [4; 5; 6]] [3; 1] 1
           = store [[1; 2; 3]; [4; 5; 6]] 1 (replicate (Z.to_nat (len [4; 5; 6])) first))
  /\ (1 < len [4; 5; 6] -> 1 <> 1 ->
      CTCLoss.truncate_target [[1; 2; 3]; [4; 5; 6]] [3; 1] 1 = Raise ValueError).
Proof.
  apply (truncate_target_outcome [[1; 2; 3]; [4; 5; 6]] [3; 1] 1 1 [4; 5; 6]);
    [reflexivity | reflexivity | lia].
Defined.

(** Two time steps of one sample with the input length 1. *)
Lemma truncate_logits_outcome_witness :
  (2 <= 1 ->
     CTCLoss.truncate_logits [[[Q2Qc 0.5; Q2Qc 0.5]]; [[Q2Qc 0.25; Q2Qc 0.75]]] [1] 0
     = Ok [[[Q2Qc 0.5; Q2Qc 0.5]]; [[Q2Qc 0.25; Q2Qc 0.75]]])
  /\ (1 = 1 -> 1 <= 2 ->
      exists logits',
        CTCLoss.truncate_logits [[[Q2Qc 0.5; Q2Qc 0.5]]; [[Q2Qc 0.25; Q2Qc 0.75]]] [1] 0
        = Ok logits'
        /\ len logits' = 2
        /\ (forall t c, 0 <= t < 2 -> 0 <= c ->
              entry3 logits' t 0 c
              = entry3 [[[Q2Qc 0.5; Q2Qc 0.5]]; [[Q2Qc 0.25; Q2Qc 0.75]]] 0 0 c)
        /\ (forall t b c, 0 <= t -> 0 <= b -> 0 <= c -> b <> 0 ->
              entry3 logits' t b c
              = entry3 [[[Q2Qc 0.5; Q2Qc 0.5]]; [[Q2Qc 0.25; Q2Qc 0.75]]] t b c))
  /\ (1 < 2 -> 1 <> 1 ->
      CTCLoss.truncate_logits [[[Q2Qc 0.5; Q2Qc 0.5]]; [[Q2Qc 0.25; Q2Qc 0.75]]] [1] 0
      = Raise ValueError).
Proof.
  apply (truncate_logits_outcome 2 1 2
           [[[Q2Qc 0.5; Q2Qc 0.5]]; [[Q2Qc 0.25; Q2Qc 0.75]]] [1] 0 1).
  - split; [reflexivity | repeat constructor].
  - lia.
  - reflexivity.
  - lia.
Defined.
